(** * Reverse-mode AD functors of the math library: a shallow embedding

    The development follows the C++ sources

      - [stan/math/rev/mat/functor/integrate_1d_tsc.hpp]
      - [stan/math/prim/functor/rowwise.hpp]
      - [stan/math/prim/mat/fun/log_mix.hpp]
      - [stan/math/rev/fun/log1p_exp.hpp]
      - [stan/math/opencl/rev/trunc.hpp]

    Every function is a template over its scalar type; the embedding is
    generic over a class [Scalar] of scalar operations, instantiated below
    at IEEE binary64 (executable) and at the real numbers (for the
    closed-form value of [log_mix]).  Effects (the autodiff stack, C++
    exceptions, calls to the caller's functors) are threaded through a
    state-and-exception monad in which the state survives a throw. *)

From Stdlib Require Import ZArith String Reals Lra Lia.
From Stdlib Require Import Floats.SpecFloat.
From stdpp Require Import base list.

Local Open Scope string_scope.
Local Open Scope list_scope.

(** ** Scalars *)

(** The operations the templates use on their scalar type. *)
Class Scalar (T : Type) := {
  d_zero : T;
  d_one : T;
  d_add : T -> T -> T;
  d_sub : T -> T -> T;
  d_mul : T -> T -> T;
  d_leb : T -> T -> bool;       (* operator<= *)
  isnan : T -> bool;            (* std::isnan *)
  isfinite : T -> bool;         (* std::isfinite *)
}.

(** The functions of <cmath> and of the library's own [prim] layer that the
    sources call but do not define. *)
Class Libm (T : Type) := {
  d_exp : T -> T;
  d_log : T -> T;
  log_sum_exp : list T -> T;
  log1p_exp : T -> T;
  inv_logit : T -> T;
}.

(** The default element of a sequence of scalars read out of range. *)
#[global] Instance scalar_inhabited {T : Type} `{Scalar T} : Inhabited T :=
  populate d_zero.

Declare Scope dbl_scope.
Delimit Scope dbl_scope with D.
Infix "+" := d_add : dbl_scope.
Infix "-" := d_sub : dbl_scope.
Infix "*" := d_mul : dbl_scope.
Infix "<=?" := d_leb : dbl_scope.

(** IEEE 754 binary64, the C++ [double]. *)
Module Binary64.
Definition prec : Z := 53.
Definition emax : Z := 1024.
Definition double : Type := spec_float.

Definition of_Z (z : Z) : double :=
  match z with
  | Z0 => S754_zero false
  | Zpos p => binary_normalize prec emax (Zpos p) 0 false
  | Zneg p => binary_normalize prec emax (Zneg p) 0 true
  end.

Definition quiet_NaN : double := S754_nan.
Definition infinity : double := S754_infinity false.

Definition is_nan (x : double) : bool :=
  match x with S754_nan => true | _ => false end.

Definition is_finite (x : double) : bool :=
  match x with
  | S754_zero _ | S754_finite _ _ _ => true
  | S754_infinity _ | S754_nan => false
  end.

(** [std::trunc]: rounding toward zero to an integral value. *)
Definition trunc (x : double) : double :=
  match x with
  | S754_finite s m (Zneg p) =>
      match Z.shiftr (Zpos m) (Zpos p) with
      | Z0 => S754_zero s
      | q => binary_normalize prec emax (if s then Z.opp q else q) 0 s
      end
  | _ => x
  end.

#[global] Instance scalar : Scalar double := {|
  d_zero := S754_zero false;
  d_one := SFone prec emax;
  d_add := SFadd prec emax;
  d_sub := SFsub prec emax;
  d_mul := SFmul prec emax;
  d_leb := SFleb;
  isnan := is_nan;
  isfinite := is_finite;
|}.
End Binary64.

(** Exact real arithmetic: no NaN, no infinity. *)
Module Real.
Definition sum_exp (v : list R) : R := foldr (fun x acc => (Rtrigo_def.exp x + acc)%R) 0%R v.

#[global] Instance scalar : Scalar R := {|
  d_zero := 0%R;
  d_one := 1%R;
  d_add := Rplus;
  d_sub := Rminus;
  d_mul := Rmult;
  d_leb := fun x y => if Rle_dec x y then true else false;
  isnan := fun _ => false;
  isfinite := fun _ => true;
|}.

#[global] Instance libm : Libm R := {|
  d_exp := Rtrigo_def.exp;
  d_log := ln;
  log_sum_exp := fun v => ln (sum_exp v);
  log1p_exp := fun x => ln (1 + Rtrigo_def.exp x)%R;
  inv_logit := fun x => (1 / (1 + Rtrigo_def.exp (- x)))%R;
|}.
End Real.

(** ** Exceptions *)

(** What a C++ [throw] can carry.  The first five are classes derived from
    [std::exception]; [thrown_object] is any other thrown value (the
    language lets a caller's functor throw an [int]); [eigen_assert] is a
    failed size assertion of the matrix library, which no handler catches.
    [undefined_behaviour] is no exception: it marks the point where the
    source reads an object that does not exist (an element past the end of
    a vector, a temporary that has been destroyed).  The language gives
    such a read no meaning, so the embedding stops the call there and says
    nothing about what a compiled program does next; no handler catches
    it. *)
Inductive exn : Type :=
| domain_error (function name : string)
| invalid_argument (what : string)
| out_of_range (what : string)
| logic_error (what : string)
| std_exception (what : string)
| thrown_object (tag : nat)
| eigen_assert (what : string)
| undefined_behaviour (what : string).

(** Whether a handler [catch (const std::exception& e)] matches. *)
Definition is_std_exception (e : exn) : bool :=
  match e with
  | thrown_object _ | eigen_assert _ | undefined_behaviour _ => false
  | _ => true
  end.

Inductive outcome (A : Type) : Type :=
| Ok (a : A)
| Raise (e : exn).
Arguments Ok {A} a.
Arguments Raise {A} e.

Definition outcome_map {A B} (f : A -> B) (o : outcome A) : outcome B :=
  match o with Ok a => Ok (f a) | Raise e => Raise e end.

(** Steps run one after the other: the results of all of them, or what the
    first one that stops has raised. *)
Fixpoint outcome_all {A} (os : list (outcome A)) : outcome (list A) :=
  match os with
  | [] => Ok []
  | Ok a :: os' => outcome_map (cons a) (outcome_all os')
  | Raise e :: _ => Raise e
  end.

(** ** The autodiff stack *)

(** A [var] is a handle on a node of the stack: its position. *)
Abbreviation var := nat (only parsing).

Section Tape.
Context {T : Type} `{Scalar T}.

(** Modelled from the spec: [stan/math/rev/core] ([vari], [var],
    [ChainableStack]) is not among the sources.  A node holds its value,
    its adjoint accumulator (zero at creation) and its operand references,
    each with the coefficient that [chain()] scales the adjoint by. *)
Record vari : Type := mk_vari {
  val_ : T;
  adj_ : T;
  edges_ : list (var * T);
}.

Definition set_adj (a : T) (n : vari) : vari :=
  mk_vari (val_ n) a (edges_ n).

Definition add_adj (a : T) (n : vari) : vari :=
  set_adj (adj_ n + a)%D n.

(** What the program's caller can observe of one run: which quadratures
    were started and at which points the caller's functors were called.
    The history is ghost state: the program appends to it and never
    reads it. *)
Inductive event : Type :=
| EvQuadrature
| EvCallF (x : T) (theta : list T)
| EvCallG (x : T) (theta : list T) (n : Z)
| EvCallFvar (x : T) (theta : list var).

(** Modelled from the spec: the process-wide tape, an append-only list of
    nodes segmented into nested regions by a stack of checkpoints (the
    newest checkpoint first). *)
Record world : Type := mk_world {
  var_stack_ : list vari;
  nested_var_stack_sizes_ : list nat;
  history : list event;
}.

Definition with_stack (s : list vari) (w : world) : world :=
  mk_world s (nested_var_stack_sizes_ w) (history w).

(** *** The monad of the embedding: state that survives a throw *)

Definition M (A : Type) : Type := world -> outcome A * world.

Definition ret {A} (a : A) : M A := fun w => (Ok a, w).

Definition bind {A B} (c : M A) (k : A -> M B) : M B :=
  fun w => match c w with
           | (Ok a, w') => k a w'
           | (Raise e, w') => (Raise e, w')
           end.

Definition throw {A} (e : exn) : M A := fun w => (Raise e, w).

(** [try { body } catch (const std::exception& e) { handler; throw; }]:
    the handler runs for the exceptions the clause matches and the
    exception is rethrown; anything else passes through untouched. *)
Definition try_catch_std_rethrow {A} (body : M A) (handler : M unit) : M A :=
  fun w => match body w with
           | (Ok a, w') => (Ok a, w')
           | (Raise e, w') =>
               if is_std_exception e
               then match handler w' with
                    | (Ok _, w'') => (Raise e, w'')
                    | (Raise e', w'') => (Raise e', w'')
                    end
               else (Raise e, w')
           end.

Definition get : M world := fun w => (Ok w, w).
Definition modify (f : world -> world) : M unit := fun w => (Ok tt, f w).
Definition lift {A} (o : outcome A) : M A := fun w => (o, w).

Definition log_event (e : event) : M unit :=
  modify (fun w => mk_world (var_stack_ w) (nested_var_stack_sizes_ w)
                            (history w ++ [e])).
End Tape.

Arguments vari T : clear implicits.
Arguments event T : clear implicits.
Arguments world T : clear implicits.
Arguments M T A : clear implicits.

Declare Scope ad_scope.
Delimit Scope ad_scope with ad.
Notation "x <- c ;; k" := (bind c (fun x => k))
  (at level 100, c at next level, right associativity) : ad_scope.
Notation "c ;; k" := (bind c (fun _ => k))
  (at level 100, right associativity) : ad_scope.
Local Open Scope ad_scope.

Section Stack.
Context {T : Type} `{Scalar T}.

(** [for (size_t n = lo; n < lo + count; n++) body], threading the local
    variables the body assigns. *)
Fixpoint for_range {S} (n count : nat) (body : nat -> S -> M T S) (s : S)
  : M T S :=
  match count with
  | O => ret s
  | Datatypes.S count' => s' <- body n s ;; for_range (Datatypes.S n) count' body s'
  end.

(** Modelled from the spec: pushing a node ([new vari(...)]) appends it to
    the tape, amortised O(1), and yields its index. *)
Definition push_node (v : T) (edges : list (var * T)) : M T var :=
  fun w => (Ok (length (var_stack_ w)),
            with_stack (var_stack_ w ++ [mk_vari v d_zero edges]) w).

(** Modelled from the spec: a handle "exposes current value and accumulated
    adjoint" of its node ([v.val()]).  A dangling handle is undefined
    behaviour in the source; the embedding reads zero there. *)
Definition val_at (w : world T) (v : var) : T :=
  match var_stack_ w !! v with Some n => val_ n | None => d_zero end.

(** Modelled from the spec: the adjoint a handle exposes ([v.adj()]). *)
Definition adj_at (w : world T) (v : var) : T :=
  match var_stack_ w !! v with Some n => adj_ n | None => d_zero end.

Definition value_of_var (v : var) : M T T := fun w => (Ok (val_at w v), w).
Definition adj (v : var) : M T T := fun w => (Ok (adj_at w v), w).

(** Modelled from the spec: [value_of] on a sequence of [var], the "plain
    (non-differentiable) parameter values". *)
Definition value_of (vs : list var) : M T (list T) :=
  fun w => (Ok (map (val_at w) vs), w).

(** Modelled from the spec: [to_var] on a sequence of values, "a fresh
    differentiable copy of the parameters": one new leaf node each. *)
Fixpoint to_var (ds : list T) : M T (list var) :=
  match ds with
  | [] => ret []
  | d :: ds' => v <- push_node d [] ;; vs <- to_var ds' ;; ret (v :: vs)
  end.

(** Modelled from the spec: [enter_nested() -> checkpoint], the checkpoint
    being the current tape length. *)
Definition start_nested : M T unit :=
  modify (fun w => mk_world (var_stack_ w)
                            (length (var_stack_ w) :: nested_var_stack_sizes_ w)
                            (history w)).

(** Modelled from the spec: [exit_nested(checkpoint)] truncates the tape
    back to the checkpoint; leaving a region that was never entered is a
    tape-discipline error. *)
Definition recover_memory_nested : M T unit :=
  fun w => match nested_var_stack_sizes_ w with
           | [] => (Raise (logic_error "empty_nested() must be false before calling recover_memory_nested()"), w)
           | c :: rest => (Ok tt, mk_world (take c (var_stack_ w)) rest (history w))
           end.

(** Start of the region a reverse pass covers: the newest checkpoint, or
    the bottom of the tape outside any nested region. *)
Definition nested_begin (w : world T) : nat :=
  match nested_var_stack_sizes_ w with [] => 0 | c :: _ => c end.

(** The tape with the adjoints of the nodes from [c] on put back to zero. *)
Definition zero_from (c : nat) (s : list (vari T)) : list (vari T) :=
  take c s ++ map (set_adj d_zero) (drop c s).

(** Modelled from the spec: [set_zero_all_adjoints_nested] is not among the
    sources; by its name, every adjoint of the current nested region (the
    nodes "created since checkpoint") goes back to the zero it was
    "initialized to"; outside a nested region this is a tape-discipline
    error. *)
Definition set_zero_all_adjoints_nested : M T unit :=
  fun w => match nested_var_stack_sizes_ w with
           | [] => (Raise (logic_error "empty_nested() must be false before calling set_zero_all_adjoints_nested()"), w)
           | c :: _ => (Ok tt, with_stack (zero_from c (var_stack_ w)) w)
           end.

(** Modelled from the spec: [chain()], "given this node's current adjoint,
    add the correctly scaled contribution into each operand's adjoint".
    A reference past the end of the tape is skipped. *)
Definition chain_edges (a : T) (edges : list (var * T)) (s : list (vari T))
  : list (vari T) :=
  fold_left (fun s e => alter (add_adj (a * e.2)%D) e.1 s) edges s.

Definition chain (i : nat) (s : list (vari T)) : list (vari T) :=
  match s !! i with
  | Some n => chain_edges (adj_ n) (edges_ n) s
  | None => s
  end.

(** Modelled from the spec: [reverse_pass(from, to)] "iterates indices from
    [to-1] down to [from], calling [chain()] on each node". *)
Fixpoint reverse_pass (from count : nat) (s : list (vari T)) : list (vari T) :=
  match count with
  | O => s
  | Datatypes.S count' => reverse_pass from count' (chain (from + count') s)
  end.

(** Modelled from the spec: [v.grad()] seeds the adjoint of [v] with one
    and runs [reverse_pass_nested(checkpoint)], "the backward pass only
    over nodes created since checkpoint", or the pass over the whole tape
    outside a nested region. *)
Definition grad (v : var) : M T unit :=
  modify (fun w =>
    let s := alter (set_adj d_one) v (var_stack_ w) in
    let from := nested_begin w in
    with_stack (reverse_pass from (length s - from) s) w).

(** The scalar a template returns: a [double] when every argument is
    constant, a [var] otherwise ([scalar_type], [return_type_t]). *)
Inductive scalar : Type :=
| ret_double (d : T)
| ret_var (v : var).

(** Modelled from the spec: [check_finite(label, value)] "fails with a
    reported error before any numerical work when violated". *)
Definition check_finite (function name : string) (x : T) : M T unit :=
  if isfinite x then ret tt else throw (domain_error function name).
End Stack.

Arguments scalar T : clear implicits.

(** ** The 1-D integrator: [integrate_1d_tsc.hpp] *)

Section Integrate.
Context {T : Type} `{Scalar T}.

(** Modelled from the spec: [de_integrator.hpp] is not among the sources;
    its contract is [quadrature(oracle: double -> double, a, b,
    target_relative_error, target_absolute_error) -> double].  Whatever
    the method, a deterministic quadrature is a finite decision tree: it
    returns, or asks the oracle for one more point and goes on according
    to the answer, or gives up (non-convergence). *)
Inductive quad_plan : Type :=
| QDone (r : T)
| QEval (x : T) (k : T -> quad_plan)
| QFail (e : exn).

Variable de_integrator_plan : T -> T -> T -> T -> quad_plan.

Fixpoint run_plan (p : quad_plan) (oracle : T -> M T T) : M T T :=
  match p with
  | QDone r => ret r
  | QEval x k => y <- oracle x ;; run_plan (k y) oracle
  | QFail e => throw e
  end.

Definition de_integrator (oracle : T -> M T T) (a b tre tae : T) : M T T :=
  log_event EvQuadrature ;;
  run_plan (de_integrator_plan a b tre tae) oracle.

(** What a functor does when it is applied to [var] arguments: it reads
    values through handles, creates nodes, and returns a handle or
    throws. *)
Inductive ad_prog : Type :=
| AdReturn (r : var)
| AdThrow (e : exn)
| AdVal (v : var) (k : T -> ad_prog)
| AdNew (v : T) (edges : list (var * T)) (k : var -> ad_prog).

Fixpoint run_ad (p : ad_prog) : M T var :=
  match p with
  | AdReturn r => ret r
  | AdThrow e => throw e
  | AdVal v k => d <- value_of_var v ;; run_ad (k d)
  | AdNew v edges k => r <- push_node v edges ;; run_ad (k r)
  end.

(** The caller's [f], a template functor: its instance at [double]
    parameters is a function that may throw, its instance at [var]
    parameters builds nodes. *)
Record functor : Type := {
  at_double : T -> list T -> outcome T;
  at_var : T -> list var -> ad_prog;
}.

(** The caller's [g]: [double (double, std::vector<double>, int,
    std::ostream* )]. *)
Definition grad_functor : Type := T -> list T -> Z -> outcome T.

Definition call_f (f : functor) (x : T) (theta : list T) : M T T :=
  log_event (EvCallF x theta) ;; lift (at_double f x theta).

Definition call_g (g : grad_functor) (x : T) (theta : list T) (n : Z) : M T T :=
  log_event (EvCallG x theta n) ;; lift (g x theta n).

Definition call_f_var (f : functor) (x : T) (theta : list var) : M T var :=
  log_event (EvCallFvar x theta) ;; run_ad (at_var f x theta).

(** [T_param]: a scalar or a sequence, of [double] or of [var]; a scalar
    is the sequence of length one ([scalar_seq_view]).  The test
    [is_constant_struct<T_param>::value] tells the two constructors
    apart. *)
Inductive params : Type :=
| param_double (ds : list T)
| param_var (vs : list var).

(** [static_cast<int>]: reduction to the 32-bit two's complement range. *)
Definition static_cast_int (z : Z) : Z :=
  ((z + 2 ^ 31) mod 2 ^ 32 - 2 ^ 31)%Z.

(** Modelled from the spec: [operands_and_partials] "per edge, lazily
    allocates a zero-initialized partial buffer sized to that edge's
    element count"; [build(value)] allocates "one node with operand list =
    the union of all differentiable input elements and chain coefficients
    = the recorded partials". *)
Record operands_and_partials : Type := {
  edge1_operands_ : list var;
  edge1_partials_ : list T;
}.

Definition mk_operands_and_partials (vs : list var) : operands_and_partials :=
  {| edge1_operands_ := vs; edge1_partials_ := replicate (length vs) d_zero |}.

(** [ops_partials.edge1_.partials_[n] += d] *)
Definition partials_add (n : nat) (d : T) (o : operands_and_partials)
  : operands_and_partials :=
  {| edge1_operands_ := edge1_operands_ o;
     edge1_partials_ := alter (fun p => (p + d)%D) n (edge1_partials_ o) |}.

Definition build (o : operands_and_partials) (value : T) : M T (scalar T) :=
  v <- push_node value (zip (edge1_operands_ o) (edge1_partials_ o)) ;;
  ret (ret_var v).

(** [for (size_t n = 0; n < N; n++) ops_partials.edge1_.partials_[n] += grad[n];] *)
Fixpoint add_partials (n count : nat) (grad : list T) (o : operands_and_partials)
  : operands_and_partials :=
  match count with
  | O => o
  | S count' => add_partials (S n) count' grad (partials_add n (grad !!! n) o)
  end.

Definition integrate_1d_tsc_tscg (f : functor) (g : grad_functor) (a b : T)
    (param : params) (tre tae : T) : M T (scalar T) :=
  check_finite "integrate_1d_tsc" "lower limit" a ;;
  check_finite "integrate_1d_tsc" "upper limit" b ;;
  match param with
  | param_var vs =>                      (* !is_constant_struct<T_param> *)
      let N := length vs in
      let grad := replicate N d_zero in
      value_of_param <- value_of vs ;;
      grad <- for_range 0 N (fun n grad =>
                r <- de_integrator
                       (fun x => call_g g x value_of_param
                                   (static_cast_int (Z.of_nat (n + 1))))
                       a b tre tae ;;
                ret (<[n := r]> grad)) grad ;;
      val_ <- de_integrator (fun x => call_f f x value_of_param) a b tre tae ;;
      let ops_partials := mk_operands_and_partials vs in
      let ops_partials := add_partials 0 N grad ops_partials in
      build ops_partials val_
  | param_double ds =>
      r <- de_integrator (fun x => call_f f x ds) a b tre tae ;;
      ret (ret_double r)
  end.

Definition gradient_of_f (f : functor) (x : T) (param : list var)
    (param_n : var) : M T T :=
  set_zero_all_adjoints_nested ;;
  r <- call_f_var f x param ;;
  grad r ;;
  adj param_n.

(** [value_of(param)] for either kind of parameter. *)
Definition value_of_params (param : params) : M T (list T) :=
  match param with
  | param_double ds => ret ds
  | param_var vs => value_of vs
  end.

(** The block that [integrate_1d_tsc] guards with [try]: it opens the
    nested region and fills [results]. *)
Definition integrate_1d_tsc_try_block (f : functor) (a b : T) (vs : list var)
    (tre tae : T) (results : list T) : M T (list T) :=
  let N := length vs in
  start_nested ;;
  theta <- value_of vs ;;
  clean_param <- to_var theta ;;
  for_range 0 N (fun n results =>
    r <- de_integrator
           (fun x => gradient_of_f f x clean_param (clean_param !!! n))
           a b tre tae ;;
    ret (<[n := r]> results)) results.

Definition integrate_1d_tsc (f : functor) (a b : T) (param : params)
    (tre tae : T) : M T (scalar T) :=
  check_finite "integrate_1d_tsc" "lower limit" a ;;
  check_finite "integrate_1d_tsc" "upper limit" b ;;
  theta <- value_of_params param ;;
  val_ <- de_integrator (fun x => call_f f x theta) a b tre tae ;;
  match param with
  | param_var vs =>                      (* !is_constant_struct<T_param> *)
      let N := length vs in
      let results := replicate N d_zero in
      results <-
        try_catch_std_rethrow
          (integrate_1d_tsc_try_block f a b vs tre tae results)
          recover_memory_nested ;;
      recover_memory_nested ;;
      let ops_partials := mk_operands_and_partials vs in
      let ops_partials := add_partials 0 N results ops_partials in
      build ops_partials val_
  | param_double _ => ret (ret_double val_)
  end.
End Integrate.

Arguments quad_plan T : clear implicits.
Arguments ad_prog T : clear implicits.
Arguments functor T : clear implicits.
Arguments grad_functor T : clear implicits.
Arguments params T : clear implicits.
Arguments operands_and_partials T : clear implicits.

(** ** Row-wise application of a functor: [rowwise.hpp] *)

Section Rowwise.
Context {T : Type} `{Scalar T}.

(** A dense matrix, as the list of its rows. *)
Definition matrix : Type := list (list T).

(** The arguments of the parameter pack: a library type (a scalar or a
    container) or the functor.  The functor receives one reference for
    each iterated input followed by the trailing arguments, may use the
    autodiff stack, and returns a sequence of scalars (a scalar result
    being the sequence of length one).  [DDangling] is a reference to a
    row vector that has been destroyed: a functor may receive and pass it
    on, and reading through it is undefined behaviour. *)
Inductive data : Type :=
| DMatrix (m : matrix)
| DRow (r : list T)
| DScalar (s : T)
| DDangling.

Inductive arg : Type :=
| AData (d : data)
| AFunctor (f : list data -> M T (list T)).

(** [is_stan_type]: a scalar or a container. *)
Definition is_stan_type (a : arg) : bool :=
  match a with AData _ => true | AFunctor _ => false end.

(** [type_count<Check, T, TArgs...>(x)] *)
Fixpoint type_count (check : arg -> bool) (targs : list arg) (x : nat) : nat :=
  match targs with
  | [] => x
  | t :: targs' => if check t then type_count check targs' (S x) else x
  end.

(** [rows(x)], an [int].  Modelled from the spec: the matrix abstraction
    is "an opaque (rows, cols, element accessor, elementwise map)
    capability". *)
Definition rows (x : matrix) : Z := Z.of_nat (length x).

Definition rows_equal (x1 : matrix) (xs : list matrix) : bool :=
  let v := rows x1 :: map rows xs in
  forallb (fun i => Z.eqb i (hd 0%Z v)) v.

(** Modelled from the spec: [row(m, i)] is not among the sources; it is the
    "element accessor" of the matrix abstraction for one row, numbered from
    one as the call [row(args, i + 1)] shows, and like the other validation
    helpers it reports an index outside the matrix, as [out_of_range]. *)
Definition row (m : matrix) (i : nat) : outcome (list T) :=
  match i with
  | O => Raise (out_of_range "row")
  | S i' => match m !! i' with
            | Some r => Ok r
            | None => Raise (out_of_range "row")
            end
  end.

(** [row_index(x, i)]: [row(args, i + 1)] is evaluated for every element
    of the tuple, and [std::forward_as_tuple] binds a reference to each
    result.  These results are temporaries of the [return] statement: they
    are destroyed when it ends, so the tuple that [row_index] returns
    holds one dangling reference for each element. *)
Fixpoint row_index (x : list matrix) (i : nat) : outcome (list data) :=
  match x with
  | [] => Ok []
  | m :: x' =>
      match row m (i + 1) with
      | Raise e => Raise e
      | Ok _ => outcome_map (cons DDangling) (row_index x' i)
      end
  end.

(** [add_offset<O>(std::index_sequence<Is...>)] *)
Definition add_offset (o : nat) (ints : list nat) : list nat :=
  map (fun i => o + i) ints.

(** [subset_tuple]; [std::get] past the end of the tuple does not
    compile. *)
Fixpoint subset_tuple (tuple : list arg) (ints : list nat) : option (list arg) :=
  match ints with
  | [] => Some []
  | i :: ints' =>
      match tuple !! i, subset_tuple tuple ints' with
      | Some a, Some rest => Some (a :: rest)
      | _, _ => None
      end
  end.

(** The iterated inputs must offer [rows()], so they are matrices. *)
Fixpoint as_matrices (t : list arg) : option (list matrix) :=
  match t with
  | [] => Some []
  | AData (DMatrix m) :: t' =>
      match as_matrices t' with Some ms => Some (m :: ms) | None => None end
  | _ => None
  end.

Fixpoint as_data (t : list arg) : option (list data) :=
  match t with
  | [] => Some []
  | AData d :: t' =>
      match as_data t' with Some ds => Some (d :: ds) | None => None end
  | AFunctor _ :: _ => None
  end.

(** [rtn.row(i) = as_row_vector(r)]: the block has the width [rtn] was
    built with; assigning a row of another width fails the matrix
    library's size assertion. *)
Definition assign_row (cols i : nat) (r : list T) (rtn : matrix) : M T matrix :=
  if Nat.eqb (length r) cols then ret (<[i := r]> rtn)
  else throw (eigen_assert "rows() == other.rows() && cols() == other.cols()").

Definition rowwise_body (x1 : matrix) (xs : list matrix)
    (f : list data -> M T (list T)) (t2 : list data) : M T matrix :=
  let t1 := x1 :: xs in
  let eqrows := rows_equal x1 xs in
  if negb eqrows then
    throw (invalid_argument
             "Inputs to be iterated over must have the same number of rows!")
  else
    let rs := length x1 in
    r0 <- lift (row_index t1 0) ;;
    iter_0 <- f (r0 ++ t2) ;;
    let cols := length iter_0 in
    (* storage not yet written: every row is assigned before the return *)
    let rtn := replicate rs (replicate cols d_zero) in
    rtn <- assign_row cols 0 iter_0 rtn ;;
    for_range 1 (rs - 1) (fun i rtn =>
      ri <- lift (row_index t1 i) ;;
      r <- f (ri ++ t2) ;;
      assign_row cols i r rtn) rtn.

(** [rowwise(args...)].  [None] stands for a call that does not compile:
    no functor in the pack, no iterated input before it, an iterated input
    without [rows()], or a trailing argument that is not a library type. *)
Definition rowwise (args : list arg) : option (M T matrix) :=
  let pos := type_count is_stan_type args 0 in
  let arg_size := length args in
  match subset_tuple args (seq 0 pos),
        subset_tuple args (add_offset (pos + 1) (seq 0 (arg_size - pos - 1))),
        args !! pos with
  | Some t1, Some t2, Some (AFunctor f) =>
      match as_matrices t1, as_data t2 with
      | Some (x1 :: xs), Some t2 => Some (rowwise_body x1 xs f t2)
      | _, _ => None
      end
  | _, _, _ => None
  end.
End Rowwise.

Arguments data T : clear implicits.
Arguments arg T : clear implicits.
Arguments matrix T : clear implicits.

(** ** The log mixture density: [log_mix.hpp] *)

Section LogMix.
Context {T : Type} `{Scalar T} `{Libm T}.

(** [T_theta]: a vector of [double] or of [var]. *)
Inductive vec_arg : Type :=
| vec_double (v : list T)
| vec_var (v : list var).

(** [T_lam]: an array of vectors of [double] or of [var]; a single vector
    is the array of length one ([vector_seq_view]). *)
Inductive vecs_arg : Type :=
| vecs_double (vs : list (list T))
| vecs_var (vs : list (list var)).

Definition vec_length (theta : vec_arg) : nat :=
  match theta with vec_double v => length v | vec_var v => length v end.

Definition length_mvt (lambda : vecs_arg) : nat :=
  match lambda with vecs_double vs => length vs | vecs_var vs => length vs end.

Definition is_constant_vec (theta : vec_arg) : bool :=
  match theta with vec_double _ => true | vec_var _ => false end.

Definition is_constant_vecs (lambda : vecs_arg) : bool :=
  match lambda with vecs_double _ => true | vecs_var _ => false end.

(** [value_of(theta_vec[m])]; the source reads it for [m] below
    [length(theta)] only. *)
Definition theta_value (w : world T) (theta : vec_arg) (m : nat) : T :=
  match theta with
  | vec_double v => v !!! m
  | vec_var v => val_at w (v !!! m)
  end.

(** [value_of(lam_vec[n][m])], for [n] below [length_mvt(lambda)].  The
    source reads it for every [m] below [length(theta)] and does not look
    at the size of [lam_vec[n]] first: when [lam_vec[n]] is shorter, the
    read is past its end, which is undefined behaviour. *)
Definition lam_value (w : world T) (lambda : vecs_arg) (n m : nat) : outcome T :=
  match lambda with
  | vecs_double vs =>
      match (vs !!! n) !! m with
      | Some x => Ok x
      | None => Raise (undefined_behaviour "lam_vec[n][m]")
      end
  | vecs_var vs =>
      match (vs !!! n) !! m with
      | Some v => Ok (val_at w v)
      | None => Raise (undefined_behaviour "lam_vec[n][m]")
      end
  end.

(** The values of a whole argument, as the checks see them. *)
Definition vec_values (w : world T) (theta : vec_arg) : list T :=
  match theta with
  | vec_double v => v
  | vec_var v => map (val_at w) v
  end.

Definition lam_values (w : world T) (lambda : vecs_arg) (n : nat) : list T :=
  match lambda with
  | vecs_double vs => vs !!! n
  | vecs_var vs => map (val_at w) (vs !!! n)
  end.

(** Modelled from the spec: the validation helpers ([check_bounded],
    [check_not_nan], [check_finite], [check_consistent_sizes]) are not
    among the sources; each "fails with a reported error before any
    numerical work when violated". *)
Definition check_bounded (function name : string) (xs : list T) (low high : T)
  : M T unit :=
  if forallb (fun x => (low <=? x)%D && (x <=? high)%D) xs then ret tt
  else throw (domain_error function name).

Definition check_not_nan (function name : string) (xs : list T) : M T unit :=
  if forallb (fun x => negb (isnan x)) xs then ret tt
  else throw (domain_error function name).

Definition check_finite_vec (function name : string) (xs : list T) : M T unit :=
  if forallb isfinite xs then ret tt
  else throw (domain_error function name).

Definition check_consistent_sizes (function name1 : string) (size1 : nat)
    (name2 : string) (size2 : nat) : M T unit :=
  if Nat.eqb size1 size2 then ret tt
  else throw (invalid_argument function).

(** [v.sum()] of the matrix library: zero for the empty vector, otherwise
    the coefficients added up from the first. *)
Definition eigen_sum (v : list T) : T :=
  match v with
  | [] => d_zero
  | x :: xs => fold_left d_add xs x
  end.

(** The two edges of [operands_and_partials<T_theta, T_lam>]; the edge of
    a constant argument is never allocated. *)
Record operands_and_partials2 : Type := {
  edge1_ : option (list var * list T);
  edge2_ : option (list (list var) * list (list T));
}.

Definition mk_operands_and_partials2 (theta : vec_arg) (lambda : vecs_arg)
  : operands_and_partials2 :=
  {| edge1_ := match theta with
               | vec_double _ => None
               | vec_var v => Some (v, replicate (length v) d_zero)
               end;
     edge2_ := match lambda with
               | vecs_double _ => None
               | vecs_var vs =>
                   Some (vs, map (fun v => replicate (length v) d_zero) vs)
               end |}.

Definition edge_list (o : operands_and_partials2) : list (var * T) :=
  match edge1_ o with Some (vs, ps) => zip vs ps | None => [] end ++
  match edge2_ o with
  | Some (vss, pss) => concat (zip_with zip vss pss)
  | None => []
  end.

Definition build2 (o : operands_and_partials2) (value : T) : M T (scalar T) :=
  match edge1_ o, edge2_ o with
  | None, None => ret (ret_double value)
  | _, _ => v <- push_node value (edge_list o) ;; ret (ret_var v)
  end.

(** [Eigen::Map<T_partials_vec>(edge1_.partials_.data(), M) = v] *)
Definition assign_edge1 (v : list T) (o : operands_and_partials2)
  : operands_and_partials2 :=
  {| edge1_ := match edge1_ o with
               | Some (vs, ps) => Some (vs, v ++ drop (length v) ps)
               | None => None
               end;
     edge2_ := edge2_ o |}.

(** [Eigen::Map<T_partials_vec>(edge2_.partials_vec_[n].data(), M) += v] *)
Definition add_edge2 (n : nat) (v : list T) (o : operands_and_partials2)
  : operands_and_partials2 :=
  {| edge1_ := edge1_ o;
     edge2_ := match edge2_ o with
               | Some (vss, pss) =>
                   Some (vss, alter (fun ps => zip_with d_add (take (length v) ps) v
                                               ++ drop (length v) ps) n pss)
               | None => None
               end |}.

Definition log_mix (theta : vec_arg) (lambda : vecs_arg) : M T (scalar T) :=
  let function := "log_mix" in
  let N := length_mvt lambda in
  let M_ := vec_length theta in
  w <- get ;;
  let theta_dbl := map (theta_value w theta) (seq 0 M_) in
  (* [lam_dbl(m, n)], kept by columns and filled column by column *)
  lam_dbl <-
    lift (outcome_all
            (map (fun n => outcome_all (map (lam_value w lambda n) (seq 0 M_)))
                 (seq 0 N))) ;;
  check_bounded function "theta" (vec_values w theta) d_zero d_one ;;
  check_not_nan function "theta" (vec_values w theta) ;;
  check_finite_vec function "theta" (vec_values w theta) ;;
  for_range 0 N (fun n _ =>
    check_not_nan function "lambda" (lam_values w lambda n) ;;
    check_finite_vec function "lambda" (lam_values w lambda n) ;;
    check_consistent_sizes function "theta" M_
                           "lambda" (length (lam_values w lambda n))) tt ;;
  let logp :=
    map (fun col => log_sum_exp (zip_with d_add col (map d_log theta_dbl)))
        lam_dbl in
  let ops_partials := mk_operands_and_partials2 theta lambda in
  let ops_partials :=
    if negb (is_constant_vec theta) || negb (is_constant_vecs lambda) then
      let derivs :=
        zip_with (fun col lp => map (fun l => d_exp (l - lp)%D) col) lam_dbl logp in
      let ops_partials :=
        if negb (is_constant_vec theta) then
          assign_edge1
            (map (fun m => eigen_sum (map (fun col => col !!! m) derivs)) (seq 0 M_))
            ops_partials
        else ops_partials in
      if negb (is_constant_vecs lambda) then
        fold_left (fun o n =>
                     add_edge2 n (zip_with d_mul (derivs !!! n) theta_dbl) o)
                  (seq 0 N) ops_partials
      else ops_partials
    else ops_partials in
  build2 ops_partials (eigen_sum logp).
End LogMix.

Arguments vec_arg T : clear implicits.
Arguments vecs_arg T : clear implicits.
Arguments operands_and_partials2 T : clear implicits.

(** ** Matrix-valued nodes: [log1p_exp.hpp] and [trunc.hpp] *)

Section MatrixNodes.
Context {T : Type} `{Scalar T}.

(** A dense block of coefficients with its shape. *)
Record block : Type := mk_block {
  nrows : nat;
  ncols : nat;
  coeffs : list T;
}.

(** Elementwise operations keep the shape of their first operand. *)
Definition block_map (f : T -> T) (x : block) : block :=
  mk_block (nrows x) (ncols x) (map f (coeffs x)).

Definition block_zip (f : T -> T -> T) (x y : block) : block :=
  mk_block (nrows x) (ncols x) (zip_with f (coeffs x) (coeffs y)).

(** [var_value<Matrix>]: one node for the whole matrix, holding a block
    of values and a block of adjoints. *)
Record var_value : Type := mk_var_value {
  val : block;
  adj_block : block;
}.

(** Modelled from the spec: [make_callback_var(value, callback)] allocates
    one node whose value is [value], whose adjoint block starts at zero
    and whose [chain()] runs the callback on the node itself.  The
    callback holds a handle on the operand and updates the operand's
    node. *)
Record callback_var : Type := mk_callback_var {
  result : var_value;
  callback : var_value -> var_value -> var_value;
}.

Definition make_callback_var (value : block)
    (cb : var_value -> var_value -> var_value) : callback_var :=
  mk_callback_var (mk_var_value value (block_map (fun _ => d_zero) value)) cb.

(** [chain()] of the node once the reverse pass has left [incoming] in its
    adjoint block: the operand node [x] becomes [chain_callback c incoming x]. *)
Definition chain_callback (c : callback_var) (incoming : block) (x : var_value)
  : var_value :=
  callback c (mk_var_value (val (result c)) incoming) x.

Section Log1pExp.
Context `{Libm T}.

(** [log1p_exp(const var& a)]: a [log1p_exp_v_vari] on the stack, whose
    [chain()] is [avi_->adj_ += adj_ * inv_logit(avi_->val_)]. *)
Definition log1p_exp_v_vari (avi : var) : M T var :=
  v <- value_of_var avi ;;
  push_node (log1p_exp v) [(avi, inv_logit v)].

Definition log1p_exp_var (a : var) : M T var := log1p_exp_v_vari a.

(** [log1p_exp(const T& x)] for a [var] matrix. *)
Definition log1p_exp_var_matrix (x : var_value) : callback_var :=
  make_callback_var (block_map log1p_exp (val x))
    (fun vi x =>
       mk_var_value (val x)
         (block_zip d_add (adj_block x)
            (block_zip d_mul (adj_block vi) (block_map inv_logit (val x))))).
End Log1pExp.

Section Trunc.
(** [trunc] on plain values and the constant [NOT_A_NUMBER] come from
    headers that are not among the sources. *)
Variable d_trunc : T -> T.
Variable NOT_A_NUMBER : T.

(** [select(c, a, b)] of the kernel generator, with a scalar [a]. *)
Definition select (c : list bool) (a : T) (b : list T) : list T :=
  zip_with (fun ci bi => if ci : bool then a else bi) c b.

(** [trunc(const var_value<T>& A)] *)
Definition trunc (A : var_value) : callback_var :=
  make_callback_var (block_map d_trunc (val A))
    (fun res A =>
       mk_var_value (val A)
         (mk_block (nrows (adj_block A)) (ncols (adj_block A))
            (select (map isnan (coeffs (val A))) NOT_A_NUMBER
                    (coeffs (adj_block A))))).
End Trunc.
End MatrixNodes.

Arguments block T : clear implicits.
Arguments var_value T : clear implicits.
Arguments callback_var T : clear implicits.

(** ** Reference semantics used by the statements *)

Section Reference.
Context {T : Type} `{Scalar T}.

(** A quadrature on an oracle without effects: its outcome and the points
    at which it evaluated the oracle, in order. *)
Fixpoint quad_run (p : quad_plan T) (oracle : T -> outcome T)
  : outcome T * list T :=
  match p with
  | QDone r => (Ok r, [])
  | QEval x k =>
      match oracle x with
      | Ok y => let (r, pts) := quad_run (k y) oracle in (r, x :: pts)
      | Raise e => (Raise e, [x])
      end
  | QFail e => (Raise e, [])
  end.

Definition is_ok {A} (o : outcome A) : bool :=
  match o with Ok _ => true | Raise _ => false end.

Definition value_or_zero (o : outcome T) : T :=
  match o with Ok v => v | Raise _ => d_zero end.

(** The world after more events were observed. *)
Definition record_events (es : list (event T)) (w : world T) : world T :=
  mk_world (var_stack_ w) (nested_var_stack_sizes_ w) (history w ++ es).

(** The events of one quadrature that evaluated its oracle at [pts]. *)
Definition quadrature_events (ev : T -> event T) (pts : list T)
  : list (event T) :=
  EvQuadrature :: map ev pts.

Definition is_quadrature (e : event T) : bool :=
  match e with EvQuadrature => true | _ => false end.

Definition is_call_g (e : event T) : bool :=
  match e with EvCallG _ _ _ => true | _ => false end.

(** Number of quadratures started, and of calls to [g], in a history. *)
Definition quadratures (es : list (event T)) : nat :=
  length (filter (fun e => is_quadrature e = true) es).

Definition g_calls (es : list (event T)) : nat :=
  length (filter (fun e => is_call_g e = true) es).

(** A computation that leaves the stack of checkpoints alone and never
    shortens the tape. *)
Definition grows {A} (c : M T A) : Prop :=
  forall w r w', c w = (r, w') ->
    nested_var_stack_sizes_ w' = nested_var_stack_sizes_ w
    /\ length (var_stack_ w) <= length (var_stack_ w').

(** What a node is apart from its adjoint. *)
Definition skeleton (n : vari T) : T * list (var * T) := (val_ n, edges_ n).

(** Two tapes with the same nodes, whose adjoints may differ below [c]
    but agree from [c] on. *)
Definition agree_from (c : nat) (s1 s2 : list (vari T)) : Prop :=
  map skeleton s1 = map skeleton s2
  /\ forall i, c <= i -> s1 !! i = s2 !! i.

(** Two worlds with the same nested regions and the same nodes, alike
    except for the adjoints the nodes hold (and for what was observed
    before). *)
Definition same_but_adjoints (w1 w2 : world T) : Prop :=
  nested_var_stack_sizes_ w1 = nested_var_stack_sizes_ w2
  /\ map skeleton (var_stack_ w1) = map skeleton (var_stack_ w2).
End Reference.

(** What the statements about [log_mix] refer to. *)
Section LogMixReference.
Context {T : Type} `{Scalar T} `{Libm T}.

(** The inputs are in the domain of [log_mix]: every mixing proportion is
    in [[0, 1]], not NaN and finite, every log density is not NaN and
    finite, and every vector of log densities is as long as the vector of
    proportions. *)
Definition lambda_valid (w : world T) (theta : vec_arg T) (lambda : vecs_arg T)
    (n : nat) : bool :=
  forallb (fun x => negb (isnan x)) (lam_values w lambda n)
  && forallb isfinite (lam_values w lambda n)
  && Nat.eqb (vec_length theta) (length (lam_values w lambda n)).

Definition log_mix_inputs_valid (w : world T) (theta : vec_arg T)
    (lambda : vecs_arg T) : bool :=
  forallb (fun x => (d_zero <=? x)%D && (x <=? d_one)%D) (vec_values w theta)
  && forallb (fun x => negb (isnan x)) (vec_values w theta)
  && forallb isfinite (vec_values w theta)
  && forallb (lambda_valid w theta lambda) (seq 0 (length_mvt lambda)).

(** The value the specification gives: the sum over [n] of
    [log_sum_exp(lambda[n] + log(theta))]. *)
Definition logp_of (theta lam_n : list T) : T :=
  log_sum_exp (zip_with d_add lam_n (map d_log theta)).

Definition log_mix_value (theta : list T) (lambda : list (list T)) : T :=
  eigen_sum (map (logp_of theta) lambda).

(** The partial derivative the specification gives for [theta[m]]: the
    sum over [n] of [exp(lambda[n][m] - logp[n])]. *)
Definition log_mix_dtheta (theta : list T) (lambda : list (list T)) (m : nat) : T :=
  eigen_sum (map (fun lam_n => d_exp (lam_n !!! m - logp_of theta lam_n)%D) lambda).

(** The number a returned scalar stands for. *)
Definition scalar_value (w : world T) (r : scalar T) : T :=
  match r with ret_double d => d | ret_var v => val_at w v end.
End LogMixReference.

(** A two-point rule, used to run the definitions on concrete inputs. *)
Definition two_point_plan {T : Type} `{Scalar T} (a b tre tae : T) : quad_plan T :=
  QEval a (fun ya => QEval b (fun yb => QDone ((ya + yb) * (b - a))%D)).

(** ** Forward mode: [fwd/fun/atan.hpp] *)

Section Fwd.
Context {T : Type} `{Scalar T}.

(** [operator/] on the scalar type and [std::atan]. *)
Variable d_div : T -> T -> T.
Variable d_atan : T -> T.

(** [fvar<T>]: a value and its tangent, as [atan] reads and builds them
    ([x.val_], [x.d_], [fvar<T>(value, tangent)]). *)
Record fvar : Type := mk_fvar {
  fval_ : T;
  d_ : T;
}.

(** Modelled from the spec: [prim/fun/square.hpp] is not among the sources;
    [square(x)] is the leaf formula [x * x], on a scalar and elementwise on
    a vector. *)
Definition square (x : T) : T := (x * x)%D.

(** [atan(const fvar<T>& x)] *)
Definition atan_fvar (x : fvar) : fvar :=
  mk_fvar (d_atan (fval_ x)) (d_div (d_ x) (d_one + square (fval_ x))%D).

(** The body of the lambda that [atan(const Container& x)] hands to
    [apply_vector_unary]: it works on one dense vector [v] with whole-array
    operations. *)
Definition atan_vector (v : list fvar) : list fvar :=
  let vals := map fval_ v in
  let result_val := map d_atan vals in
  let result_d :=
    zip_with d_div (map d_ v) (map (fun s => (d_one + s)%D) (map square vals)) in
  zip_with mk_fvar result_val result_d.

(** A container: a dense vector, or a [std::vector] of containers. *)
Inductive container : Type :=
| CVector (v : list fvar)
| CNested (cs : list container).

(** Modelled from the spec: [apply_vector_unary] is not among the sources;
    it is the "elementwise adapter" that hands every dense vector of the
    container to the function and keeps the nesting. *)
Fixpoint apply_vector_unary (f : list fvar -> list fvar) (x : container)
  : container :=
  match x with
  | CVector v => CVector (f v)
  | CNested cs => CNested (map (apply_vector_unary f) cs)
  end.

(** [atan(const Container& x)] *)
Definition atan_container (x : container) : container :=
  apply_vector_unary atan_vector x.

(** The scalar function applied to every element of a container. *)
Fixpoint container_map (g : fvar -> fvar) (x : container) : container :=
  match x with
  | CVector v => CVector (map g v)
  | CNested cs => CNested (map (container_map g) cs)
  end.
End Fwd.

Arguments fvar T : clear implicits.
Arguments container T : clear implicits.

(** ** What the further statements refer to *)

Section Frames.
Context {T : Type} `{Scalar T}.

(** A computation that only observes: it leaves the tape and the stack of
    checkpoints exactly as they are. *)
Definition only_logs {A} (c : M T A) : Prop :=
  forall w r w', c w = (r, w') ->
    var_stack_ w' = var_stack_ w
    /\ nested_var_stack_sizes_ w' = nested_var_stack_sizes_ w.

(** A computation that leaves the stack of checkpoints alone and, on the
    tape, only appends nodes and changes adjoints: the values and operands
    of the nodes it found are the ones it leaves. *)
Definition only_appends {A} (c : M T A) : Prop :=
  forall w r w', c w = (r, w') ->
    nested_var_stack_sizes_ w' = nested_var_stack_sizes_ w
    /\ exists added,
         map skeleton (var_stack_ w')
         = map skeleton (var_stack_ w) ++ added.

(** A computation that appends events to the history, among them at most
    [k] starts of a quadrature, and exactly [k] when it returns. *)
Definition starts_quadratures {A} (k : nat) (c : M T A) : Prop :=
  forall w r w', c w = (r, w') ->
    exists es,
      history w' = history w ++ es
      /\ quadratures es <= k
      /\ (is_ok r = true -> quadratures es = k).

Definition is_call_f (e : event T) : bool :=
  match e with EvCallF _ _ => true | _ => false end.

(** Number of calls of [f] on plain values in a history. *)
Definition f_calls (es : list (event T)) : nat :=
  length (filter (fun e => is_call_f e = true) es).

End Frames.

Section LogMixGradientReference.
Context {T : Type} `{Scalar T} `{Libm T}.

(** Every vector of log densities has at least the size of [theta], so
    that the loop filling [lam_dbl] reads inside each of them. *)
Definition lambda_reads_in_range (w : world T) (theta : vec_arg T)
    (lambda : vecs_arg T) : bool :=
  forallb (fun n => Nat.leb (vec_length theta) (length (lam_values w lambda n)))
          (seq 0 (length_mvt lambda)).

(** The errors that the checks of [log_mix] report. *)
Definition log_mix_reported (e : exn) : Prop :=
  e = domain_error "log_mix" "theta"
  \/ e = domain_error "log_mix" "lambda"
  \/ e = invalid_argument "log_mix".

(** The coefficients [log_mix] accumulates for the log densities
    [lambda[n]], starting from zero:
    [0 + exp(lambda[n][m] - logp[n]) * theta[m]] for each [m]. *)
Definition log_mix_dlambda (theta lam_n : list T) : list T :=
  zip_with (fun l t => (d_zero + d_exp (l - logp_of theta lam_n) * t)%D)
           lam_n theta.

(** The operands and coefficients of the node [log_mix] builds. *)
Definition log_mix_edges (w : world T) (theta : vec_arg T)
    (lambda : vecs_arg T) : list (var * T) :=
  let thetas := vec_values w theta in
  let lams := map (lam_values w lambda) (seq 0 (length_mvt lambda)) in
  match theta with
  | vec_double _ => []
  | vec_var vs => zip vs (map (log_mix_dtheta thetas lams) (seq 0 (length vs)))
  end ++
  match lambda with
  | vecs_double _ => []
  | vecs_var vss => concat (zip_with zip vss (map (log_mix_dlambda thetas) lams))
  end.
End LogMixGradientReference.

(** The mixture density in exact arithmetic. *)
Section MixtureReference.

(** [theta[0] * exp(lam[0]) + theta[1] * exp(lam[1]) + ...] *)
Fixpoint mixture (theta lam : list R) : R :=
  match theta, lam with
  | t :: theta', l :: lam' => (t * Rtrigo_def.exp l + mixture theta' lam')%R
  | _, _ => 0%R
  end.

Fixpoint Rsum (v : list R) : R :=
  match v with
  | [] => 0%R
  | x :: v' => (x + Rsum v')%R
  end.
End MixtureReference.

(** ** Concrete inputs

    Small inputs in binary64 on which the definitions are run. *)

Module Sample.
Import Binary64.

Definition d (z : Z) : double := of_Z z.

(** [f(x, theta) = x * theta[0]], and its partial derivative in
    [theta[0]], [g(x, theta, 1) = x]. *)
Definition f : functor double := {|
  at_double := fun x theta => Ok (x * theta !!! 0)%D;
  at_var := fun x theta =>
    AdVal (theta !!! 0) (fun v =>
    AdNew (x * v)%D [(theta !!! 0, x)] (fun r => AdReturn r));
|}.

Definition g : grad_functor double := fun x theta n => Ok x.

(** A functor that throws once it is evaluated on [var]s: an exception
    derived from [std::exception], and an [int]. *)
Definition f_throws (e : exn) : functor double := {|
  at_double := fun x theta => Ok (x * theta !!! 0)%D;
  at_var := fun x theta =>
    AdVal (theta !!! 0) (fun v =>
    AdNew (x * v)%D [(theta !!! 0, x)] (fun r => AdThrow e));
|}.

(** A tape holding the one parameter [theta[0] = 3], outside any nested
    region. *)
Definition tape : world double :=
  mk_world [mk_vari (d 3) d_zero []] [] [].

(** The same tape inside a nested region opened at its bottom, once with
    clean adjoints and once with an adjoint left by an earlier query. *)
Definition nested_tape (stale : double) : world double :=
  mk_world [mk_vari (d 3) stale []; mk_vari (d 6) stale [(0, d 2)]] [0] [].

Definition tol : double := d 0.

(** A 3x1 and a 4x1 matrix, and a functor that pushes a node on the tape
    and then adds up what it is given; reading an argument through a
    dangling reference is undefined behaviour. *)
Definition col3 : matrix double := [[d 1]; [d 2]; [d 3]].
Definition col4 : matrix double := [[d 1]; [d 2]; [d 3]; [d 4]].

Definition row_sum (args : list (data double)) : M double (list double) :=
  (_ <- push_node (d 0) [] ;;
   if existsb (fun a => match a with DDangling => true | _ => false end) args
   then throw (undefined_behaviour "read through a dangling reference")
   else
     ret [fold_left (fun acc a =>
                       match a with
                       | DRow r => fold_left d_add r acc
                       | DScalar s => (acc + s)%D
                       | DMatrix _ | DDangling => acc
                       end) args d_zero])%ad.

(** A 1x2 [var] matrix whose second value is NaN. *)
Definition nan_matrix : var_value double :=
  mk_var_value (mk_block 1 2 [d 1; quiet_NaN]) (mk_block 1 2 [d 2; d 3]).
End Sample.

(** The example of the specification in exact arithmetic: two mixing
    proportions of one half, and the log densities [log 0.5] and
    [log 1.5]. *)
Module RealSample.
Definition theta : list R := [1 / 2; 1 / 2]%R.

(** The log densities as one vector of length two: the 2x1 column
    [lam_dbl] that [log_mix] fills. *)
Definition lambda : list (list R) := [[ln (1 / 2); ln (3 / 2)]]%R.

(** The same numbers as two vectors of length one. *)
Definition lambda_by_rows : list (list R) := [[ln (1 / 2)]; [ln (3 / 2)]]%R.


Definition empty_tape : world R := mk_world [] [] [].


(** A 1x2 [var] matrix. *)
Definition x : var_value R :=
  mk_var_value (mk_block 1 2 [0; 1]%R) (mk_block 1 2 [5; 7]%R).
End RealSample.

(** Functors that fail on plain values, and a tape that holds two mixing
    proportions and the two log densities of one vector. *)
Module FailingSample.
Import Binary64.

Definition f_fails : functor double := {|
  at_double := fun x theta => Raise (domain_error "f" "x");
  at_var := fun x theta => AdThrow (domain_error "f" "x");
|}.

Definition g_fails : grad_functor double :=
  fun x theta n => Raise (domain_error "g" "x").

(** [f(x, theta) = theta[0] / x], whose partial derivative in [theta[0]]
    is [1 / x]: infinite at [x = 0]. *)
Definition f_ratio : functor double := {|
  at_double := fun x theta => Ok (SFdiv prec emax (theta !!! 0) x);
  at_var := fun x theta =>
    AdVal (theta !!! 0) (fun v =>
    AdNew (SFdiv prec emax v x) [(theta !!! 0, SFdiv prec emax d_one x)]
          (fun r => AdReturn r));
|}.

(** A nested region opened at the bottom of the tape that holds the one
    parameter [theta[0] = 3] and nothing else. *)
Definition fresh_region : world double :=
  mk_world [mk_vari (of_Z 3) d_zero []] [0] [].
End FailingSample.

Module MixSample.
Definition tape : world R :=
  mk_world [mk_vari (1 / 2)%R 0%R []; mk_vari (1 / 2)%R 0%R [];
            mk_vari 0%R 0%R []; mk_vari 1%R 0%R []] [] [].

Definition theta : list var := [0; 1].
Definition lambda : list (list var) := [[2; 3]].

(** One vector of three log densities, one more than the two mixing
    proportions of [RealSample.theta]. *)
Definition long_lambda : list (list R) := [[0; 0; 0]]%R.
End MixSample.

(** * Properties *)

(** ** The integrator *)

Section IntegrateFacts.
Context {T : Type} `{Scalar T}.
Variable plan : T -> T -> T -> T -> quad_plan T.

Lemma record_events_nil (w : world T) : record_events [] w = w.
Proof. destruct w; unfold record_events; simpl. by rewrite app_nil_r. Qed.

Lemma record_events_app es1 es2 (w : world T) :
  record_events es2 (record_events es1 w) = record_events (es1 ++ es2) w.
Proof. unfold record_events; simpl. by rewrite app_assoc. Qed.

Lemma run_plan_instrumented (ev : T -> event T) (o : T -> outcome T) p w :
  run_plan p (fun x => log_event (ev x) ;; lift (o x)) w
  = (fst (quad_run p o), record_events (map ev (snd (quad_run p o))) w).
Proof.
  revert w. induction p as [r | x k IH | e]; intros w; simpl.
  - by rewrite record_events_nil.
  - unfold bind at 1. unfold bind at 1. unfold log_event, modify, lift.
    destruct (o x) as [y | e]; simpl.
    + rewrite IH. destruct (quad_run (k y) o) as [r pts]; simpl.
      unfold record_events; simpl. by rewrite <- app_assoc.
    + reflexivity.
  - by rewrite record_events_nil.
Qed.

Lemma de_integrator_instrumented (ev : T -> event T) (o : T -> outcome T)
    a b tre tae w :
  de_integrator plan (fun x => log_event (ev x) ;; lift (o x)) a b tre tae w
  = (fst (quad_run (plan a b tre tae) o),
     record_events (quadrature_events ev (snd (quad_run (plan a b tre tae) o))) w).
Proof.
  unfold de_integrator. unfold bind at 1. unfold log_event at 1.
  unfold modify at 1. rewrite run_plan_instrumented.
  unfold quadrature_events, record_events; simpl. by rewrite <- app_assoc.
Qed.

Lemma quadratures_app (es1 es2 : list (event T)) :
  quadratures (es1 ++ es2) = quadratures es1 + quadratures es2.
Proof. unfold quadratures. by rewrite filter_app, length_app. Qed.

Lemma quadratures_calls (ev : T -> event T) (pts : list T) :
  (forall x, is_quadrature (ev x) = false) ->
  quadratures (map ev pts) = 0.
Proof.
  intros Hev. unfold quadratures.
  induction pts as [| x pts IH]; simpl; [done |].
  rewrite filter_cons. rewrite decide_False; [done |].
  rewrite Hev. discriminate.
Qed.

Lemma quadratures_quadrature_events (ev : T -> event T) (pts : list T) :
  (forall x, is_quadrature (ev x) = false) ->
  quadratures (quadrature_events ev pts) = 1.
Proof.
  intros Hev. unfold quadrature_events.
  change (EvQuadrature :: map ev pts) with ([EvQuadrature] ++ map ev pts).
  rewrite quadratures_app, quadratures_calls by done. reflexivity.
Qed.

Lemma g_calls_f_events (theta : list T) (pts : list T) :
  g_calls (quadrature_events (fun x => EvCallF x theta) pts) = 0.
Proof.
  unfold g_calls, quadrature_events.
  rewrite filter_cons, decide_False by discriminate.
  induction pts as [| x pts IH]; simpl; [done |].
  by rewrite filter_cons, decide_False by discriminate.
Qed.

(** C3.  A call of [integrate_1d_tsc_tscg] or [integrate_1d_tsc] whose
    lower or upper bound is not finite (an infinity or a NaN) throws the
    [domain_error] of [check_finite], and the world it leaves is the world
    it was given: no quadrature was started, no functor was called, the
    tape and its nested regions are untouched. *)
Theorem nonfinite_bound_rejected (f : functor T) (g : grad_functor T)
    (a b : T) (param : params T) (tre tae : T) (w : world T) :
  isfinite a = false \/ isfinite b = false ->
  exists name,
    integrate_1d_tsc_tscg plan f g a b param tre tae w
    = (Raise (domain_error "integrate_1d_tsc" name), w)
    /\ integrate_1d_tsc plan f a b param tre tae w
       = (Raise (domain_error "integrate_1d_tsc" name), w).
Proof.
  intros Hbound.
  unfold integrate_1d_tsc_tscg, integrate_1d_tsc, check_finite.
  destruct (isfinite a) eqn:Ha.
  - destruct Hbound as [Hbound | Hbound]; [discriminate |].
    rewrite Hbound. by exists "upper limit".
  - by exists "lower limit".
Qed.

(** C8.  With a parameter pack of [double]s both entry points come down to
    one quadrature of [f] at the parameter values: the outcome is that
    quadrature's, the only events are its start and its calls of [f] (so
    [g] is never called), and the tape and the stack of nested regions
    are the ones the call was given (no region opened, no node built). *)
Theorem constant_params_single_quadrature (f : functor T) (g : grad_functor T)
    (a b : T) (ds : list T) (tre tae : T) (w : world T) :
  isfinite a = true -> isfinite b = true ->
  let run := quad_run (plan a b tre tae) (fun x => at_double f x ds) in
  let events := quadrature_events (fun x => EvCallF x ds) (snd run) in
  let w' := record_events events w in
  integrate_1d_tsc_tscg plan f g a b (param_double ds) tre tae w
  = (outcome_map ret_double (fst run), w')
  /\ integrate_1d_tsc plan f a b (param_double ds) tre tae w
     = (outcome_map ret_double (fst run), w')
  /\ quadratures events = 1
  /\ g_calls events = 0
  /\ var_stack_ w' = var_stack_ w
  /\ nested_var_stack_sizes_ w' = nested_var_stack_sizes_ w.
Proof.
  intros Ha Hb run events w'.
  assert (Hq : de_integrator plan (fun x => call_f f x ds) a b tre tae w
               = (fst run, w')) by apply de_integrator_instrumented.
  repeat split.
  - unfold integrate_1d_tsc_tscg, check_finite. rewrite Ha, Hb.
    unfold bind at 1. unfold ret at 1. unfold bind at 1. unfold ret at 1.
    unfold bind at 1. rewrite Hq. by destruct (fst run).
  - unfold integrate_1d_tsc, check_finite. rewrite Ha, Hb.
    unfold bind at 1. unfold ret at 1. unfold bind at 1. unfold ret at 1.
    unfold bind at 1. unfold value_of_params, ret at 1.
    unfold bind at 1. rewrite Hq. by destruct (fst run).
  - by apply quadratures_quadrature_events.
  - apply g_calls_f_events.
Qed.

Lemma static_cast_int_small (z : Z) :
  (0 <= z < 2 ^ 31)%Z -> static_cast_int z = z.
Proof. intros Hz. unfold static_cast_int. rewrite Z.mod_small; lia. Qed.

Lemma add_partials_fill (vs : list var) (grad l : list T) (n0 c : nat) :
  length l = n0 ->
  add_partials n0 c grad
    {| edge1_operands_ := vs; edge1_partials_ := l ++ replicate c d_zero |}
  = {| edge1_operands_ := vs;
       edge1_partials_ := l ++ map (fun n => (d_zero + grad !!! n)%D) (seq n0 c) |}.
Proof.
  revert l n0. induction c as [| c IH]; intros l n0 Hl; simpl; [done |].
  unfold partials_add; simpl.
  rewrite alter_app_r_alt by lia.
  replace (n0 - length l) with 0 by lia. simpl.
  rewrite (cons_middle _ l), app_assoc, IH by (rewrite length_app; simpl; lia).
  by rewrite <- app_assoc.
Qed.

Section GradientLoop.
Variables (g : grad_functor T) (a b tre tae : T) (theta : list T).

Let G (k : nat) : outcome T * list T :=
  quad_run (plan a b tre tae) (fun x => g x theta (Z.of_nat k)).

Lemma gradient_loop (c n0 : nat) (l : list T) (w0 : world T) :
  length l = n0 ->
  forallb (fun k => is_ok (fst (G k))) (seq (S n0) c) = true ->
  (Z.of_nat (n0 + c) < 2 ^ 31)%Z ->
  for_range n0 c
    (fun n grad =>
       r <- de_integrator plan
              (fun x => call_g g x theta (static_cast_int (Z.of_nat (n + 1))))
              a b tre tae ;;
       ret (<[n := r]> grad))
    (l ++ replicate c d_zero) w0
  = (Ok (l ++ map (fun n => value_or_zero (fst (G (n + 1)))) (seq n0 c)),
     record_events
       (concat (map (fun n => quadrature_events
                                (fun x => EvCallG x theta (Z.of_nat (n + 1)))
                                (snd (G (n + 1))))
                    (seq n0 c))) w0).
Proof.
  revert n0 l w0. induction c as [| c IH]; intros n0 l w0 Hl Hok Hint.
  - simpl. by rewrite record_events_nil.
  - simpl in Hok. apply andb_prop in Hok as [Hok0 Hok].
    cbn [for_range]. unfold bind at 1. unfold bind at 1.
    rewrite static_cast_int_small by lia.
    pose proof (de_integrator_instrumented
                  (fun x => EvCallG x theta (Z.of_nat (n0 + 1)))
                  (fun x => g x theta (Z.of_nat (n0 + 1)))
                  a b tre tae w0) as Hq.
    unfold call_g. rewrite Hq. fold (G (n0 + 1)).
    replace (S n0) with (n0 + 1) in Hok0 by lia.
    destruct (fst (G (n0 + 1))) as [r | e] eqn:Hr; [| discriminate].
    unfold ret at 1.
    rewrite insert_app_r_alt by lia.
    replace (n0 - length l) with 0 by lia. cbn [replicate insert list_insert].
    rewrite (cons_middle r l), app_assoc.
    rewrite IH; [| rewrite length_app; simpl; lia | done | lia].
    cbn [seq map concat]. rewrite Hr. cbn [value_or_zero].
    rewrite record_events_app. by rewrite <- app_assoc.
Qed.
End GradientLoop.

Lemma quadratures_concat (ev : nat -> T -> event T) (pts : nat -> list T)
    (ns : list nat) :
  (forall n x, is_quadrature (ev n x) = false) ->
  quadratures (concat (map (fun n => quadrature_events (ev n) (pts n)) ns))
  = length ns.
Proof.
  intros Hev. induction ns as [| n ns IH]; [done |].
  cbn [map concat length].
  rewrite quadratures_app, IH, quadratures_quadrature_events; [done |].
  intros x. apply Hev.
Qed.

(** C1.  Analytic-gradient mode with a pack [vs] of [N] differentiable
    parameters, [theta] being their values.  Components are numbered from
    one, as [g] numbers them: component [n + 1] sits at position [n] of
    the pack.  When the bounds are finite and none of the quadratures
    throws, the call
    - runs, for [n = 0 .. N-1] in turn, one quadrature whose oracle is
      [g(., theta, n + 1)], and then one quadrature whose oracle is
      [f(., theta)]: [N + 1] quadratures in all, and no other event;
    - returns a new node whose value is the result of the quadrature of
      [f] and whose coefficient for the parameter at position [n] is the
      result of the quadrature of [g(., theta, n + 1)], added to the zero
      the buffer of partials starts with. *)
Theorem analytic_gradient_quadratures (f : functor T) (g : grad_functor T)
    (a b : T) (vs : list var) (tre tae : T) (w : world T) :
  let N := length vs in
  let theta := map (val_at w) vs in
  let G := fun k : nat =>
    quad_run (plan a b tre tae) (fun x => g x theta (Z.of_nat k)) in
  let F := quad_run (plan a b tre tae) (fun x => at_double f x theta) in
  let events :=
    concat (map (fun n : nat => quadrature_events
                            (fun x => EvCallG x theta (Z.of_nat (n + 1)))
                            (snd (G (n + 1))))
                (seq 0 N))
    ++ quadrature_events (fun x => EvCallF x theta) (snd F) in
  let node :=
    mk_vari (value_or_zero (fst F)) d_zero
      (zip vs (map (fun n : nat => d_add d_zero (value_or_zero (fst (G (n + 1)))))
                   (seq 0 N))) in
  isfinite a = true -> isfinite b = true ->
  (Z.of_nat N < 2 ^ 31)%Z ->
  forallb (fun k : nat => is_ok (fst (G k))) (seq 1 N) = true ->
  is_ok (fst F) = true ->
  integrate_1d_tsc_tscg plan f g a b (param_var vs) tre tae w
  = (Ok (ret_var (length (var_stack_ w))),
     mk_world (var_stack_ w ++ [node]) (nested_var_stack_sizes_ w)
              (history w ++ events))
  /\ quadratures events = N + 1.
Proof.
  intros N theta G F events node Ha Hb HN HG HF. split.
  - unfold integrate_1d_tsc_tscg, check_finite. rewrite Ha, Hb.
    unfold bind at 1. unfold ret at 1. unfold bind at 1. unfold ret at 1.
    unfold bind at 1. unfold value_of at 1. fold theta. fold N.
    unfold bind at 1.
    pose proof (gradient_loop g a b tre tae theta N 0 [] w eq_refl HG HN) as Hloop.
    cbn [app] in Hloop. rewrite Hloop. clear Hloop.
    unfold bind at 1.
    pose proof (de_integrator_instrumented
                  (fun x => EvCallF x theta) (fun x => at_double f x theta)
                  a b tre tae) as Hq.
    unfold call_f. rewrite Hq. fold F.
    destruct (fst F) as [val_ | e] eqn:HvF; [| discriminate].
    unfold mk_operands_and_partials. fold N.
    pose proof (add_partials_fill vs
                  (map (fun n => value_or_zero (fst (G (n + 1)))) (seq 0 N))
                  [] 0 N eq_refl) as Hfill.
    rewrite !app_nil_l in Hfill. unfold G in Hfill. rewrite Hfill. clear Hfill.
    unfold build, bind, push_node, ret, with_stack, record_events; cbn.
    f_equal. f_equal.
    + f_equal. unfold node, G. cbn [value_or_zero]. f_equal. f_equal. f_equal.
      apply map_ext_in. intros n Hn. apply in_seq in Hn.
      f_equal.
      apply list_lookup_total_correct.
      rewrite list_lookup_fmap, lookup_seq_lt by lia. reflexivity.
    + unfold events. by rewrite <- app_assoc.
  - unfold events. rewrite quadratures_app.
    rewrite (quadratures_concat
               (fun n x => EvCallG x theta (Z.of_nat (n + 1)))
               (fun n => snd (G (n + 1)))) by done.
    rewrite quadratures_quadrature_events by done.
    by rewrite length_seq.
Qed.
End IntegrateFacts.

(** ** Nested regions *)

Section NestedFacts.
Context {T : Type} `{Scalar T}.
Variable plan : T -> T -> T -> T -> quad_plan T.

Lemma bind_inv {A B} (c : M T A) (k : A -> M T B) w r w' :
  bind c k w = (r, w') ->
  (exists a w1, c w = (Ok a, w1) /\ k a w1 = (r, w'))
  \/ (exists e, c w = (Raise e, w') /\ r = Raise e).
Proof.
  unfold bind. destruct (c w) as [[a | e] w1]; intros Hk.
  - left. by exists a, w1.
  - right. exists e. by inversion Hk.
Qed.

Lemma grows_ret {A} (a : A) : grows (ret a : M T A).
Proof. intros w r w' [= <- <-]. done. Qed.

Lemma grows_throw {A} (e : exn) : grows (throw e : M T A).
Proof. intros w r w' [= <- <-]. done. Qed.

Lemma grows_lift {A} (o : outcome A) : grows (lift o : M T A).
Proof. intros w r w' [= <- <-]. done. Qed.

Lemma grows_bind {A B} (c : M T A) (k : A -> M T B) :
  grows c -> (forall a, grows (k a)) -> grows (bind c k).
Proof.
  intros Hc Hk w r w' Hrun.
  apply bind_inv in Hrun as [(a & w1 & Hc1 & Hk1) | (e & Hc1 & _)].
  - apply Hc in Hc1 as [Hn1 Hl1]. apply Hk in Hk1 as [Hn2 Hl2].
    split; [congruence | lia].
  - by apply Hc in Hc1.
Qed.

Lemma grows_log_event (e : event T) : grows (log_event e).
Proof. intros w r w' [= <- <-]. done. Qed.

Lemma grows_push_node (v : T) (edges : list (var * T)) :
  grows (push_node v edges).
Proof.
  intros w r w' [= <- <-]. simpl. rewrite length_app. split; [done | lia].
Qed.

Lemma grows_value_of_var (v : var) : grows (value_of_var v).
Proof. intros w r w' [= <- <-]. done. Qed.

Lemma grows_value_of (vs : list var) : grows (value_of vs).
Proof. intros w r w' [= <- <-]. done. Qed.

Lemma grows_adj (v : var) : grows (adj v).
Proof. intros w r w' [= <- <-]. done. Qed.

Lemma grows_to_var (ds : list T) : grows (to_var ds).
Proof.
  induction ds as [| d ds IH]; simpl.
  - apply grows_ret.
  - apply grows_bind; [apply grows_push_node |]. intros v.
    apply grows_bind; [apply IH |]. intros vs. apply grows_ret.
Qed.

Lemma length_zero_from (c : nat) (s : list (vari T)) :
  length (zero_from c s) = length s.
Proof.
  unfold zero_from.
  rewrite length_app, length_map, length_take, length_drop. lia.
Qed.

Lemma grows_set_zero_all_adjoints_nested : grows set_zero_all_adjoints_nested.
Proof.
  intros w r w'. unfold set_zero_all_adjoints_nested.
  destruct (nested_var_stack_sizes_ w) as [| c rest] eqn:Hn;
    intros [= <- <-]; simpl; [by rewrite Hn |].
  by rewrite length_zero_from.
Qed.

Lemma length_chain_edges (a : T) (edges : list (var * T)) (s : list (vari T)) :
  length (chain_edges a edges s) = length s.
Proof.
  unfold chain_edges. revert s.
  induction edges as [| e edges IH]; intros s; simpl; [done |].
  by rewrite IH, length_alter.
Qed.

Lemma length_chain (i : nat) (s : list (vari T)) : length (chain i s) = length s.
Proof.
  unfold chain. destruct (s !! i); [apply length_chain_edges | done].
Qed.

Lemma length_reverse_pass (from count : nat) (s : list (vari T)) :
  length (reverse_pass from count s) = length s.
Proof.
  revert s. induction count as [| count IH]; intros s; simpl; [done |].
  by rewrite IH, length_chain.
Qed.

Lemma grows_grad (v : var) : grows (grad v).
Proof.
  intros w r w' [= <- <-]. simpl.
  by rewrite length_reverse_pass, length_alter.
Qed.

Lemma grows_run_ad (p : ad_prog T) : grows (run_ad p).
Proof.
  induction p as [r | e | v k IH | v edges k IH]; simpl.
  - apply grows_ret.
  - apply grows_throw.
  - apply grows_bind; [apply grows_value_of_var | done].
  - apply grows_bind; [apply grows_push_node | done].
Qed.

Lemma grows_run_plan (p : quad_plan T) (oracle : T -> M T T) :
  (forall x, grows (oracle x)) -> grows (run_plan p oracle).
Proof.
  intros Ho. induction p as [r | x k IH | e]; simpl.
  - apply grows_ret.
  - apply grows_bind; [apply Ho | done].
  - apply grows_throw.
Qed.

Lemma grows_de_integrator (oracle : T -> M T T) (a b tre tae : T) :
  (forall x, grows (oracle x)) -> grows (de_integrator plan oracle a b tre tae).
Proof.
  intros Ho. unfold de_integrator.
  apply grows_bind; [apply grows_log_event |]. intros _.
  by apply grows_run_plan.
Qed.

Lemma grows_for_range {S} (body : nat -> S -> M T S) (count n : nat) (s : S) :
  (forall n s, grows (body n s)) -> grows (for_range n count body s).
Proof.
  intros Hb. revert n s. induction count as [| count IH]; intros n s; simpl.
  - apply grows_ret.
  - apply grows_bind; [apply Hb | intros s'; apply IH].
Qed.

Lemma grows_gradient_of_f (f : functor T) (x : T) (param : list var)
    (param_n : var) :
  grows (gradient_of_f f x param param_n).
Proof.
  unfold gradient_of_f.
  apply grows_bind; [apply grows_set_zero_all_adjoints_nested |]. intros _.
  apply grows_bind.
  { unfold call_f_var. apply grows_bind; [apply grows_log_event |].
    intros _. apply grows_run_ad. }
  intros r. apply grows_bind; [apply grows_grad |]. intros _. apply grows_adj.
Qed.

Lemma try_block_region (f : functor T) (a b : T) (vs : list var) (tre tae : T)
    (results : list T) (w1 : world T) r w2 :
  integrate_1d_tsc_try_block plan f a b vs tre tae results w1 = (r, w2) ->
  nested_var_stack_sizes_ w2
  = length (var_stack_ w1) :: nested_var_stack_sizes_ w1
  /\ length (var_stack_ w1) <= length (var_stack_ w2).
Proof.
  unfold integrate_1d_tsc_try_block. intros Hrun.
  apply bind_inv in Hrun as [(u & w1' & Hstart & Hrest) | (e & Hstart & _)];
    [| discriminate].
  injection Hstart as _ <-.
  assert (Hg : grows
    (theta <- value_of vs ;;
     clean_param <- to_var theta ;;
     for_range 0 (length vs)
       (fun n results =>
          r <- de_integrator plan
                 (fun x => gradient_of_f f x clean_param (clean_param !!! n))
                 a b tre tae ;;
          ret (<[n := r]> results)) results)).
  { apply grows_bind; [apply grows_value_of |]. intros theta.
    apply grows_bind; [apply grows_to_var |]. intros clean_param.
    apply grows_for_range. intros n rs.
    apply grows_bind; [| intros; apply grows_ret].
    apply grows_de_integrator. intros x. apply grows_gradient_of_f. }
  apply Hg in Hrest as [Hn Hl]. simpl in Hn, Hl. done.
Qed.

Lemma guarded_block_released (f : functor T) (a b : T) (vs : list var)
    (tre tae : T) (results : list T) (w1 : world T) r w2 :
  try_catch_std_rethrow
    (integrate_1d_tsc_try_block plan f a b vs tre tae results)
    recover_memory_nested w1 = (r, w2) ->
  match r with
  | Ok _ =>
      nested_var_stack_sizes_ w2
      = length (var_stack_ w1) :: nested_var_stack_sizes_ w1
      /\ length (var_stack_ w1) <= length (var_stack_ w2)
  | Raise e =>
      is_std_exception e = true ->
      nested_var_stack_sizes_ w2 = nested_var_stack_sizes_ w1
      /\ length (var_stack_ w2) = length (var_stack_ w1)
  end.
Proof.
  unfold try_catch_std_rethrow.
  destruct (integrate_1d_tsc_try_block plan f a b vs tre tae results w1)
    as [[rs | e] w'] eqn:Hblock;
    apply try_block_region in Hblock as [Hn Hl].
  - intros [= <- <-]. done.
  - destruct (is_std_exception e) eqn:He.
    + unfold recover_memory_nested. rewrite Hn.
      intros [= <- <-]. intros _. simpl.
      rewrite length_take. split; [done | lia].
    + intros [= <- <-]. rewrite He. discriminate.
Qed.

(** C2, as the code has it.  In nested-AD mode with a pack [vs] of
    differentiable parameters:
    - when the guarded block throws an exception [e] that the clause
      [catch (const std::exception&)] matches, the handler leaves the
      nested region, cutting the tape back to its length at entry, and
      the same [e] reaches the caller;
    - whatever the call does, if it returns, or throws an exception
      derived from [std::exception], the stack of checkpoints is the one
      it was given and the tape has its former length, plus the one
      result node when the call returns.
    A thrown object that is not a [std::exception] passes the clause by,
    and for it nothing of the kind holds. *)
Theorem nested_region_released (f : functor T) (a b : T) (vs : list var)
    (tre tae : T) :
  (forall results w1 e w2,
      integrate_1d_tsc_try_block plan f a b vs tre tae results w1
      = (Raise e, w2) ->
      is_std_exception e = true ->
      try_catch_std_rethrow
        (integrate_1d_tsc_try_block plan f a b vs tre tae results)
        recover_memory_nested w1
      = (Raise e,
         mk_world (take (length (var_stack_ w1)) (var_stack_ w2))
                  (nested_var_stack_sizes_ w1) (history w2)))
  /\ (forall w r w',
        integrate_1d_tsc plan f a b (param_var vs) tre tae w = (r, w') ->
        match r with
        | Ok v =>
            v = ret_var (length (var_stack_ w))
            /\ nested_var_stack_sizes_ w' = nested_var_stack_sizes_ w
            /\ length (var_stack_ w') = S (length (var_stack_ w))
        | Raise e =>
            is_std_exception e = true ->
            nested_var_stack_sizes_ w' = nested_var_stack_sizes_ w
            /\ length (var_stack_ w') = length (var_stack_ w)
        end).
Proof.
  split.
  - intros results w1 e w2 Hblock He.
    unfold try_catch_std_rethrow. rewrite Hblock, He.
    apply try_block_region in Hblock as [Hn _].
    unfold recover_memory_nested. by rewrite Hn.
  - intros w r w' Hrun.
    unfold integrate_1d_tsc, check_finite in Hrun.
    destruct (isfinite a); [| by injection Hrun as <- <-].
    destruct (isfinite b); [| by injection Hrun as <- <-].
    unfold bind at 1 in Hrun. unfold ret at 1 in Hrun.
    unfold bind at 1 in Hrun. unfold ret at 1 in Hrun.
    unfold bind at 1 in Hrun. unfold value_of_params, value_of at 1 in Hrun.
    unfold bind at 1 in Hrun.
    pose proof (de_integrator_instrumented plan
                  (fun x => EvCallF x (map (val_at w) vs))
                  (fun x => at_double f x (map (val_at w) vs))
                  a b tre tae w) as Hq.
    unfold call_f in Hrun. rewrite Hq in Hrun. clear Hq.
    destruct (fst (quad_run _ _)) as [val_ | e0]; [| by injection Hrun as <- <-].
    set (w1 := record_events _ w) in Hrun.
    unfold bind at 1 in Hrun.
    destruct (try_catch_std_rethrow _ _ w1) as [[results | e] w2] eqn:Hguard;
      apply guarded_block_released in Hguard.
    + destruct Hguard as [Hn Hl].
      unfold bind at 1 in Hrun. unfold recover_memory_nested at 1 in Hrun.
      rewrite Hn in Hrun.
      unfold build, bind, push_node, ret in Hrun. injection Hrun as <- <-.
      subst w1. simpl in *.
      rewrite length_app, length_take. simpl. repeat split; [f_equal |]; lia.
    + injection Hrun as <- <-. intros He. by apply Hguard.
Qed.
End NestedFacts.

(** ** One gradient query: [gradient_of_f] *)

Section GradientFacts.
Context {T : Type} `{Scalar T}.

Lemma skeleton_lookup (s1 s2 : list (vari T)) (i : nat) :
  map skeleton s1 = map skeleton s2 ->
  skeleton <$> s1 !! i = skeleton <$> s2 !! i.
Proof.
  intros Hs.
  change (skeleton <$> s1 = skeleton <$> s2) in Hs.
  rewrite <- !list_lookup_fmap. by rewrite Hs.
Qed.

Lemma skeleton_length (s1 s2 : list (vari T)) :
  map skeleton s1 = map skeleton s2 -> length s1 = length s2.
Proof.
  intros Hs. apply (f_equal length) in Hs. by rewrite !length_map in Hs.
Qed.

Lemma skeleton_alter (h : vari T -> vari T) (j : nat) (s : list (vari T)) :
  (forall n, skeleton (h n) = skeleton n) ->
  map skeleton (alter h j s) = map skeleton s.
Proof.
  intros Hh. change (skeleton <$> alter h j s = skeleton <$> s).
  apply list_eq. intros i. rewrite !list_lookup_fmap.
  destruct (decide (j = i)) as [-> | Hne].
  - rewrite list_lookup_alter_eq. destruct (s !! i); simpl; [| done].
    by rewrite Hh.
  - by rewrite list_lookup_alter_ne.
Qed.

Lemma agree_from_alter (h : vari T -> vari T) (c j : nat) (s1 s2 : list (vari T)) :
  (forall n, skeleton (h n) = skeleton n) ->
  agree_from c s1 s2 -> agree_from c (alter h j s1) (alter h j s2).
Proof.
  intros Hh [Hs Ha]. split.
  - by rewrite !skeleton_alter.
  - intros i Hi. destruct (decide (j = i)) as [-> | Hne].
    + by rewrite !list_lookup_alter_eq, Ha.
    + rewrite !list_lookup_alter_ne by done. by apply Ha.
Qed.

Lemma agree_from_app (c : nat) (s1 s2 l : list (vari T)) :
  agree_from c s1 s2 -> agree_from c (s1 ++ l) (s2 ++ l).
Proof.
  intros [Hs Ha]. split.
  - by rewrite !map_app, Hs.
  - intros i Hi. rewrite !lookup_app, (skeleton_length _ _ Hs).
    by rewrite Ha.
Qed.

Lemma lookup_zero_from (c : nat) (s : list (vari T)) (i : nat) :
  c <= i -> zero_from c s !! i = set_adj d_zero <$> s !! i.
Proof.
  unfold zero_from. revert c i. induction s as [| n s IH]; intros c i Hi.
  - by rewrite take_nil, drop_nil.
  - destruct c as [| c].
    + apply (list_lookup_fmap (set_adj d_zero) (n :: s) i).
    + destruct i as [| i]; [lia |]. simpl. apply IH. lia.
Qed.

Lemma skeleton_zero_from (c : nat) (s : list (vari T)) :
  map skeleton (zero_from c s) = map skeleton s.
Proof.
  unfold zero_from. rewrite map_app, map_map. simpl.
  rewrite <- (take_drop c s) at 3. rewrite map_app. f_equal.
Qed.

Lemma agree_from_zero_from (c : nat) (s1 s2 : list (vari T)) :
  map skeleton s1 = map skeleton s2 ->
  agree_from c (zero_from c s1) (zero_from c s2).
Proof.
  intros Hs. split.
  - by rewrite !skeleton_zero_from.
  - intros i Hi. rewrite !lookup_zero_from by done.
    pose proof (skeleton_lookup s1 s2 i Hs) as Hi'.
    destruct (s1 !! i) as [n1 |], (s2 !! i) as [n2 |]; simpl in *; try done.
    injection Hi' as Hv He. unfold set_adj. by rewrite Hv, He.
Qed.

Lemma agree_from_chain_edges (c : nat) (a : T) (edges : list (var * T))
    (s1 s2 : list (vari T)) :
  agree_from c s1 s2 ->
  agree_from c (chain_edges a edges s1) (chain_edges a edges s2).
Proof.
  unfold chain_edges. revert s1 s2.
  induction edges as [| e edges IH]; intros s1 s2 Hag; simpl; [done |].
  apply IH. by apply agree_from_alter.
Qed.

Lemma agree_from_chain (c i : nat) (s1 s2 : list (vari T)) :
  c <= i -> agree_from c s1 s2 -> agree_from c (chain i s1) (chain i s2).
Proof.
  intros Hi Hag. unfold chain. rewrite (proj2 Hag i Hi).
  destruct (s2 !! i); [by apply agree_from_chain_edges | done].
Qed.

Lemma agree_from_reverse_pass (c count : nat) (s1 s2 : list (vari T)) :
  agree_from c s1 s2 ->
  agree_from c (reverse_pass c count s1) (reverse_pass c count s2).
Proof.
  revert s1 s2. induction count as [| count IH]; intros s1 s2 Hag; simpl;
    [done |].
  apply IH. apply agree_from_chain; [lia | done].
Qed.

Lemma val_at_agree (c : nat) (w1 w2 : world T) (v : var) :
  agree_from c (var_stack_ w1) (var_stack_ w2) -> val_at w1 v = val_at w2 v.
Proof.
  intros [Hs _]. unfold val_at.
  assert (Hv : skeleton <$> var_stack_ w1 !! v = skeleton <$> var_stack_ w2 !! v)
    by apply (skeleton_lookup _ _ v Hs).
  destruct (var_stack_ w1 !! v), (var_stack_ w2 !! v); simpl in *; try done.
  by injection Hv.
Qed.

Lemma run_ad_agree (c : nat) (p : ad_prog T) (w1 w2 : world T) :
  nested_var_stack_sizes_ w1 = nested_var_stack_sizes_ w2 ->
  agree_from c (var_stack_ w1) (var_stack_ w2) ->
  fst (run_ad p w1) = fst (run_ad p w2)
  /\ nested_var_stack_sizes_ (snd (run_ad p w1))
     = nested_var_stack_sizes_ (snd (run_ad p w2))
  /\ agree_from c (var_stack_ (snd (run_ad p w1)))
                  (var_stack_ (snd (run_ad p w2))).
Proof.
  revert w1 w2.
  induction p as [r | e | v k IH | v edges k IH]; intros w1 w2 Hn Hag; simpl.
  - done.
  - done.
  - unfold bind, value_of_var. rewrite (val_at_agree c w1 w2 v Hag).
    by apply IH.
  - unfold bind, push_node.
    rewrite (skeleton_length _ _ (proj1 Hag)).
    apply IH; simpl; [done |]. by apply agree_from_app.
Qed.

Lemma adj_at_agree (c : nat) (s1 s2 : list (vari T)) (w1 w2 : world T) (v : var) :
  c <= v -> agree_from c s1 s2 ->
  adj_at (with_stack s1 w1) v = adj_at (with_stack s2 w2) v.
Proof.
  intros Hv [_ Ha]. unfold adj_at; simpl.
  assert (Hl : s1 !! v = s2 !! v) by by apply Ha.
  by rewrite Hl.
Qed.

(** C9.  [gradient_of_f] inside the nested region that starts at
    checkpoint [c], asked for the adjoint of a parameter [param_n] of
    that region.
    - It begins by setting to zero the adjoint of every node of the
      region, and evaluates [f] and runs the reverse pass in the world so
      obtained.
    - Run in two worlds that hold the same nodes in the same regions and
      differ only in the adjoints left in them (anywhere on the tape),
      it has the same outcome: the same value returned, or the same
      exception. *)
Theorem gradient_of_f_ignores_stale_adjoints (f : functor T) (x : T)
    (param : list var) (param_n : var) (w1 w2 : world T)
    (c : nat) (rest : list nat) :
  nested_var_stack_sizes_ w1 = c :: rest ->
  same_but_adjoints w1 w2 ->
  c <= param_n ->
  (forall i n, c <= i ->
     zero_from c (var_stack_ w1) !! i = Some n -> adj_ n = d_zero)
  /\ gradient_of_f f x param param_n w1
     = (r <- call_f_var f x param ;; grad r ;; adj param_n)
         (with_stack (zero_from c (var_stack_ w1)) w1)
  /\ fst (gradient_of_f f x param param_n w1)
     = fst (gradient_of_f f x param param_n w2).
Proof.
  intros Hn1 [Hn Hs] Hpn.
  assert (Hn2 : nested_var_stack_sizes_ w2 = c :: rest) by congruence.
  split; [| split].
  - intros i n Hi Hl. rewrite lookup_zero_from in Hl by done.
    destruct (var_stack_ w1 !! i); simpl in Hl; [| done].
    by injection Hl as <-.
  - unfold gradient_of_f. unfold bind at 1.
    unfold set_zero_all_adjoints_nested. by rewrite Hn1.
  - unfold gradient_of_f, call_f_var, bind, set_zero_all_adjoints_nested,
      log_event, modify.
    rewrite Hn1, Hn2. cbn [with_stack var_stack_ nested_var_stack_sizes_ history].
    set (u1 := mk_world (zero_from c (var_stack_ w1)) _ _).
    set (u2 := mk_world (zero_from c (var_stack_ w2)) _ _).
    assert (Hag : agree_from c (var_stack_ u1) (var_stack_ u2))
      by (by apply agree_from_zero_from).
    assert (Hnu : nested_var_stack_sizes_ u1 = nested_var_stack_sizes_ u2)
      by (simpl; congruence).
    pose proof (run_ad_agree c (at_var f x param) u1 u2 Hnu Hag)
      as (Hr & Hnr & Hagr).
    pose proof (grows_run_ad (at_var f x param) u1) as Hg1.
    destruct (run_ad (at_var f x param) u1) as [[r1 | e1] v1],
             (run_ad (at_var f x param) u2) as [[r2 | e2] v2];
      simpl in Hr, Hnr, Hagr; try done.
    + injection Hr as <-.
      specialize (Hg1 _ _ eq_refl) as [Hg1 _]. simpl in Hg1.
      unfold bind, grad, modify, adj. simpl. f_equal.
      unfold nested_begin. rewrite <- Hnr, Hg1, Hn1.
      rewrite !length_alter, (skeleton_length _ _ (proj1 Hagr)).
      apply adj_at_agree with (c := c); [done |].
      apply agree_from_reverse_pass. by apply agree_from_alter.
    + by injection Hr as <-.
Qed.
End GradientFacts.

(** ** Row-wise application *)

Section RowwiseFacts.
Context {T : Type} `{Scalar T}.

Lemma type_count_prefix (check : arg T -> bool) (pre rest : list (arg T)) (x : nat) :
  forallb check pre = true ->
  type_count check (pre ++ rest) x = type_count check rest (x + length pre).
Proof.
  revert x. induction pre as [| a pre IH]; intros x Hpre; simpl.
  - by rewrite Nat.add_0_r.
  - simpl in Hpre. apply andb_prop in Hpre as [Ha Hpre].
    rewrite Ha, IH by done. f_equal. lia.
Qed.

Lemma subset_tuple_middle (pre l post : list (arg T)) :
  subset_tuple (pre ++ l ++ post) (seq (length pre) (length l)) = Some l.
Proof.
  revert pre. induction l as [| a l IH]; intros pre; simpl; [done |].
  rewrite list_lookup_middle by done.
  specialize (IH (pre ++ [a])).
  rewrite length_app, <- app_assoc in IH. simpl in IH.
  replace (length pre + 1) with (S (length pre)) in IH by lia.
  by rewrite IH.
Qed.

Lemma as_matrices_map (ms : list (matrix T)) :
  as_matrices (map (fun m => AData (DMatrix m)) ms) = Some ms.
Proof. induction ms as [| m ms IH]; simpl; [done |]. by rewrite IH. Qed.

Lemma as_data_map (ds : list (data T)) : as_data (map AData ds) = Some ds.
Proof. induction ds as [| d ds IH]; simpl; [done |]. by rewrite IH. Qed.

Lemma rowwise_compiles (x1 : matrix T) (xs : list (matrix T))
    (f : list (data T) -> M T (list T)) (t2 : list (data T)) :
  rowwise (map (fun m => AData (DMatrix m)) (x1 :: xs)
             ++ AFunctor f :: map AData t2)
  = Some (rowwise_body x1 xs f t2).
Proof.
  unfold rowwise.
  set (t1 := map (fun m => AData (DMatrix m)) (x1 :: xs)).
  assert (Hpos : type_count is_stan_type (t1 ++ AFunctor f :: map AData t2) 0
                 = length t1).
  { rewrite type_count_prefix; [done |].
    unfold t1. apply forallb_forall. intros a Ha.
    apply in_map_iff in Ha as (m & <- & _). done. }
  rewrite Hpos.
  pose proof (subset_tuple_middle [] t1 (AFunctor f :: map AData t2)) as H1.
  rewrite app_nil_l in H1. change (length (@nil (arg T))) with 0 in H1.
  rewrite H1.
  pose proof (subset_tuple_middle (t1 ++ [AFunctor f]) (map AData t2) []) as H2.
  rewrite app_nil_r, <- app_assoc in H2.
  change ([AFunctor f] ++ map AData t2) with (AFunctor f :: map AData t2) in H2.
  unfold add_offset.
  replace (length (t1 ++ AFunctor f :: map AData t2) - length t1 - 1)
    with (length (map AData t2))
    by (rewrite length_app; simpl; lia).
  change (map (fun i => length t1 + 1 + i) (seq 0 (length (map AData t2))))
    with (Nat.add (length t1 + 1) <$> seq 0 (length (map AData t2))).
  rewrite fmap_add_seq, Nat.add_0_r.
  rewrite length_app in H2. change (length [AFunctor f]) with 1 in H2.
  rewrite H2.
  rewrite list_lookup_middle by done.
  unfold t1. by rewrite as_matrices_map, as_data_map.
Qed.

Lemma rows_equal_false (x1 : matrix T) (xs : list (matrix T)) :
  Exists (fun x => length x <> length x1) xs -> rows_equal x1 xs = false.
Proof.
  intros Hex. unfold rows_equal. simpl. rewrite Z.eqb_refl. simpl.
  induction Hex as [x xs Hx | x xs _ IH]; simpl.
  - apply andb_false_intro1. apply Z.eqb_neq. unfold rows. lia.
  - by rewrite IH, andb_false_r.
Qed.

(** C7.  A call [rowwise(x1, xs..., f, t2...)] whose iterated inputs do not
    all have as many rows as the first throws [invalid_argument].  This
    holds for every functor [f], whatever [f] would do to the world, and
    the world the call leaves is the world it was given: [f] was not
    evaluated and the tape is as it was. *)
Theorem rowwise_rejects_unequal_rows (x1 : matrix T) (xs : list (matrix T))
    (f : list (data T) -> M T (list T)) (t2 : list (data T)) (w : world T) :
  Exists (fun x => length x <> length x1) xs ->
  exists call,
    rowwise (map (fun m => AData (DMatrix m)) (x1 :: xs)
               ++ AFunctor f :: map AData t2) = Some call
    /\ call w
       = (Raise (invalid_argument
                   "Inputs to be iterated over must have the same number of rows!"),
          w).
Proof.
  intros Hex. exists (rowwise_body x1 xs f t2). split.
  - apply rowwise_compiles.
  - unfold rowwise_body. by rewrite rows_equal_false.
Qed.
End RowwiseFacts.

(** ** The log mixture density *)

Section LogMixFacts.
Context {T : Type} `{Scalar T} `{Libm T}.

Lemma check_loop_ok (theta : vec_arg T) (lambda : vecs_arg T) (w0 w : world T)
    (count n0 : nat) :
  forallb (lambda_valid w0 theta lambda) (seq n0 count) = true ->
  for_range n0 count
    (fun n _ =>
       check_not_nan "log_mix" "lambda" (lam_values w0 lambda n) ;;
       check_finite_vec "log_mix" "lambda" (lam_values w0 lambda n) ;;
       check_consistent_sizes "log_mix" "theta" (vec_length theta)
                              "lambda" (length (lam_values w0 lambda n))) tt w
  = (Ok tt, w).
Proof.
  revert n0. induction count as [| count IH]; intros n0 Hok; simpl; [done |].
  simpl in Hok. apply andb_prop in Hok as [Hn Hok].
  unfold lambda_valid in Hn.
  apply andb_prop in Hn as [Hn Hsz]. apply andb_prop in Hn as [Hnan Hfin].
  unfold bind at 1. unfold bind at 1. unfold bind at 1.
  unfold check_not_nan, check_finite_vec, check_consistent_sizes.
  rewrite Hnan, Hfin, Hsz. unfold bind, ret. by apply IH.
Qed.

Lemma check_loop_reports (theta : vec_arg T) (lambda : vecs_arg T)
    (w0 w : world T) (count n0 : nat) :
  forallb (lambda_valid w0 theta lambda) (seq n0 count) = false ->
  exists e,
    for_range n0 count
      (fun n _ =>
         check_not_nan "log_mix" "lambda" (lam_values w0 lambda n) ;;
         check_finite_vec "log_mix" "lambda" (lam_values w0 lambda n) ;;
         check_consistent_sizes "log_mix" "theta" (vec_length theta)
                                "lambda" (length (lam_values w0 lambda n))) tt w
    = (Raise e, w)
    /\ log_mix_reported e.
Proof.
  unfold log_mix_reported.
  revert n0. induction count as [| count IH]; intros n0 Hbad; simpl in *;
    [done |].
  unfold bind at 1. unfold bind at 1. unfold bind at 1.
  unfold check_not_nan, check_finite_vec, check_consistent_sizes.
  unfold lambda_valid in Hbad at 1.
  destruct (forallb (fun x => negb (isnan x)) (lam_values w0 lambda n0));
    [| eexists; split; [reflexivity | tauto]].
  destruct (forallb isfinite (lam_values w0 lambda n0));
    [| eexists; split; [reflexivity | tauto]].
  destruct (vec_length theta =? length (lam_values w0 lambda n0))%nat;
    [| eexists; split; [reflexivity | tauto]].
  simpl in Hbad. unfold ret at 1. unfold ret at 1. unfold ret at 1.
  by apply IH.
Qed.

(** *** The loop that fills [lam_dbl] *)

Lemma outcome_all_reads {A} (g : A -> T) (e : exn) (l : list A) (count k : nat) :
  k + count <= length l ->
  outcome_all
    (map (fun m => match l !! m with Some x => Ok (g x) | None => Raise e end)
         (seq k count))
  = Ok (map g (take count (drop k l))).
Proof.
  revert k. induction count as [| count IH]; intros k Hle; simpl; [done |].
  destruct (lookup_lt_is_Some_2 l k ltac:(lia)) as [x Hx].
  rewrite Hx, IH by lia. rewrite (drop_S _ _ _ Hx). done.
Qed.

Lemma outcome_all_reads_past {A} (g : A -> T) (e : exn) (l : list A)
    (count k : nat) :
  k <= length l -> length l < k + count ->
  outcome_all
    (map (fun m => match l !! m with Some x => Ok (g x) | None => Raise e end)
         (seq k count))
  = Raise e.
Proof.
  revert k. induction count as [| count IH]; intros k Hk Hlt; simpl; [lia |].
  destruct (l !! k) as [x |] eqn:Hx; [| done].
  apply lookup_lt_Some in Hx. by rewrite IH by lia.
Qed.

Lemma lam_column_in_range (w : world T) (lambda : vecs_arg T) (n count : nat) :
  count <= length (lam_values w lambda n) ->
  outcome_all (map (lam_value w lambda n) (seq 0 count))
  = Ok (take count (lam_values w lambda n)).
Proof.
  destruct lambda as [vs | vs]; unfold lam_value; simpl; intros Hle.
  - rewrite (outcome_all_reads (fun x => x) _ (vs !!! n)) by lia.
    by rewrite drop_0, map_id.
  - rewrite length_map in Hle.
    rewrite (outcome_all_reads (val_at w) _ (vs !!! n)) by lia.
    rewrite drop_0.
    change (map (val_at w) (take count (vs !!! n)))
      with (val_at w <$> take count (vs !!! n)).
    by rewrite fmap_take.
Qed.

Lemma lam_column_past (w : world T) (lambda : vecs_arg T) (n count : nat) :
  length (lam_values w lambda n) < count ->
  outcome_all (map (lam_value w lambda n) (seq 0 count))
  = Raise (undefined_behaviour "lam_vec[n][m]").
Proof.
  destruct lambda as [vs | vs]; unfold lam_value; simpl; intros Hlt.
  - apply (outcome_all_reads_past (fun x => x)); lia.
  - rewrite length_map in Hlt.
    apply (outcome_all_reads_past (val_at w)); lia.
Qed.

Lemma outcome_all_map_ok {A B} (F : A -> outcome B) (G : A -> B) (ns : list A) :
  (forall n, In n ns -> F n = Ok (G n)) ->
  outcome_all (map F ns) = Ok (map G ns).
Proof.
  induction ns as [| n ns IH]; intros HF; simpl; [done |].
  rewrite (HF n) by (by left). rewrite IH; [done |].
  intros n' Hn'. apply HF. by right.
Qed.

Lemma outcome_all_map_raise {A B} (F : A -> outcome B) (e : exn) (ns : list A) :
  (forall n, In n ns -> is_ok (F n) = true \/ F n = Raise e) ->
  (exists n, In n ns /\ F n = Raise e) ->
  outcome_all (map F ns) = Raise e.
Proof.
  induction ns as [| n ns IH]; intros Hall [n0 [Hin Hn0]]; simpl;
    [destruct Hin |].
  destruct (Hall n (or_introl eq_refl)) as [Hok | Hraise].
  - destruct (F n) as [b | e'] eqn:HFn; [| discriminate].
    rewrite IH; [done | |].
    + intros n' Hn'. apply Hall. by right.
    + destruct Hin as [-> | Hin]; [congruence |]. by exists n0.
  - by rewrite Hraise.
Qed.

Lemma lam_fill_in_range (w : world T) (theta : vec_arg T) (lambda : vecs_arg T) :
  lambda_reads_in_range w theta lambda = true ->
  outcome_all
    (map (fun n => outcome_all
                     (map (lam_value w lambda n) (seq 0 (vec_length theta))))
         (seq 0 (length_mvt lambda)))
  = Ok (map (fun n => take (vec_length theta) (lam_values w lambda n))
            (seq 0 (length_mvt lambda))).
Proof.
  intros Hin. apply outcome_all_map_ok. intros n Hn.
  apply lam_column_in_range.
  apply (proj1 (forallb_forall _ _) Hin) in Hn. by apply Nat.leb_le.
Qed.

Lemma lam_fill_past (w : world T) (theta : vec_arg T) (lambda : vecs_arg T) :
  lambda_reads_in_range w theta lambda = false ->
  outcome_all
    (map (fun n => outcome_all
                     (map (lam_value w lambda n) (seq 0 (vec_length theta))))
         (seq 0 (length_mvt lambda)))
  = Raise (undefined_behaviour "lam_vec[n][m]").
Proof.
  intros Hpast. apply outcome_all_map_raise.
  - intros n _.
    destruct (le_lt_dec (vec_length theta) (length (lam_values w lambda n))).
    + left. by rewrite lam_column_in_range.
    + right. by apply lam_column_past.
  - unfold lambda_reads_in_range in Hpast.
    assert (Hex : exists n,
              In n (seq 0 (length_mvt lambda))
              /\ length (lam_values w lambda n) < vec_length theta).
    { revert Hpast. generalize (seq 0 (length_mvt lambda)).
      induction l as [| n l IH]; simpl; [done |].
      destruct (Nat.leb_spec (vec_length theta)
                  (length (lam_values w lambda n))); simpl.
      - intros Hl. destruct (IH Hl) as [n' [Hin Hn']].
        exists n'. split; [by right | done].
      - intros _. exists n. split; [by left | done]. }
    destruct Hex as [n [Hn Hshort]]. exists n. split; [done |].
    by apply lam_column_past.
Qed.

Lemma lam_fill_valid (w : world T) (theta : vec_arg T) (lambda : vecs_arg T) :
  forallb (lambda_valid w theta lambda) (seq 0 (length_mvt lambda)) = true ->
  outcome_all
    (map (fun n => outcome_all
                     (map (lam_value w lambda n) (seq 0 (vec_length theta))))
         (seq 0 (length_mvt lambda)))
  = Ok (map (lam_values w lambda) (seq 0 (length_mvt lambda))).
Proof.
  intros Hlam. apply outcome_all_map_ok. intros n Hn.
  apply (proj1 (forallb_forall _ _) Hlam) in Hn.
  unfold lambda_valid in Hn. apply andb_prop in Hn as [_ Hsz].
  apply Nat.eqb_eq in Hsz.
  rewrite lam_column_in_range by lia. by rewrite Hsz, take_ge.
Qed.

Lemma log_mix_past_run (theta : vec_arg T) (lambda : vecs_arg T) (w : world T) :
  lambda_reads_in_range w theta lambda = false ->
  log_mix theta lambda w = (Raise (undefined_behaviour "lam_vec[n][m]"), w).
Proof.
  intros Hpast. unfold log_mix.
  unfold bind at 1. unfold get at 1. unfold bind at 1. unfold lift at 1.
  by rewrite lam_fill_past.
Qed.

(** C6.  The size of a [lambda[n]] is not checked before it is read.  When
    some [lambda[n]] has fewer elements than [theta], the loop that fills
    [lam_dbl] reads [lam_vec[n][m]] past the end of that vector before any
    check has run: undefined behaviour, not the reported size error.  This
    holds whatever else is wrong with the inputs. *)
Theorem log_mix_unchecked_read (theta : vec_arg T) (lambda : vecs_arg T)
    (w : world T) (n : nat) :
  n < length_mvt lambda ->
  length (lam_values w lambda n) < vec_length theta ->
  log_mix theta lambda w = (Raise (undefined_behaviour "lam_vec[n][m]"), w)
  /\ is_std_exception (undefined_behaviour "lam_vec[n][m]") = false.
Proof.
  intros Hn Hshort. split; [| done]. apply log_mix_past_run.
  unfold lambda_reads_in_range.
  destruct (forallb _ (seq 0 (length_mvt lambda))) eqn:Hall; [| done].
  pose proof (proj1 (forallb_forall _ _) Hall n) as Hle.
  rewrite Nat.leb_le in Hle. specialize (Hle ltac:(apply in_seq; lia)). lia.
Qed.

Lemma map_lookup_total_seq {A} `{Inhabited A} (l : list A) :
  map (fun m => l !!! m) (seq 0 (length l)) = l.
Proof.
  apply list_eq. intros i.
  change (map (fun m => l !!! m) (seq 0 (length l)))
    with ((fun m => l !!! m) <$> seq 0 (length l)).
  rewrite list_lookup_fmap.
  destruct (decide (i < length l)) as [Hlt | Hge].
  - rewrite lookup_seq_lt by done. simpl.
    by rewrite list_lookup_lookup_total_lt.
  - rewrite lookup_seq_ge by lia. simpl.
    symmetry. apply lookup_ge_None. lia.
Qed.

Lemma theta_dbl_values (w : world T) (theta : vec_arg T) :
  map (theta_value w theta) (seq 0 (vec_length theta)) = vec_values w theta.
Proof.
  destruct theta as [v | v]; simpl.
  - apply map_lookup_total_seq.
  - transitivity (map (val_at w) (map (fun m => v !!! m) (seq 0 (length v)))).
    + by rewrite map_map.
    + by rewrite map_lookup_total_seq.
Qed.

Lemma zip_with_map_r {A B C} (f : A -> B -> C) (g : A -> B) (l : list A) :
  zip_with f l (map g l) = map (fun x => f x (g x)) l.
Proof. induction l as [| x l IH]; simpl; [done |]. by rewrite IH. Qed.

Lemma lookup_total_map (g : T -> T) (l : list T) (m : nat) :
  m < length l -> map g l !!! m = g (l !!! m).
Proof.
  intros Hm. apply list_lookup_total_correct.
  change (map g l) with (g <$> l). rewrite list_lookup_fmap.
  by rewrite list_lookup_lookup_total_lt.
Qed.

Lemma edge1_fold_add_edge2 (F : nat -> list T) (ns : list nat)
    (o : operands_and_partials2 T) :
  edge1_ (fold_left (fun o n => add_edge2 n (F n) o) ns o) = edge1_ o.
Proof.
  revert o. induction ns as [| n ns IH]; intros o; simpl; [done |].
  by rewrite IH.
Qed.

Lemma edge2_fold_add_edge2 (F : nat -> list T) (ns : list nat)
    (o : operands_and_partials2 T) :
  is_Some (edge2_ o) ->
  is_Some (edge2_ (fold_left (fun o n => add_edge2 n (F n) o) ns o)).
Proof.
  revert o. induction ns as [| n ns IH]; intros o Ho; simpl; [done |].
  apply IH. destruct Ho as [[vss pss] Ho]. simpl. rewrite Ho. by eexists.
Qed.

(** The checks of [log_mix] all pass on valid inputs. *)
Ltac pass_checks Hbound Hnan Hfin Hlam :=
  unfold log_mix;
  unfold bind at 1; unfold get at 1;
  unfold bind at 1; unfold lift at 1; rewrite (lam_fill_valid _ _ _ Hlam);
  unfold bind at 1; unfold check_bounded; rewrite Hbound;
  unfold ret at 1; unfold bind at 1; unfold check_not_nan at 1; rewrite Hnan;
  unfold ret at 1; unfold bind at 1; unfold check_finite_vec at 1; rewrite Hfin;
  unfold ret at 1; unfold bind at 1;
  rewrite (check_loop_ok _ _ _ _ _ _ Hlam).

Lemma val_at_pushed (w : world T) (n : vari T) :
  val_at (with_stack (var_stack_ w ++ [n]) w) (length (var_stack_ w)) = val_ n.
Proof.
  unfold val_at, with_stack; simpl. by rewrite list_lookup_middle.
Qed.

Lemma build2_value (o : operands_and_partials2 T) (value : T) (w : world T) :
  exists r w', build2 o value w = (Ok r, w') /\ scalar_value w' r = value.
Proof.
  unfold build2, bind, push_node, ret.
  destruct (edge1_ o) as [e1 |], (edge2_ o) as [e2 |]; eexists _, _;
    (split; [reflexivity |]); simpl; try done; apply val_at_pushed.
Qed.

Lemma build2_edge1 (o : operands_and_partials2 T) (vs : list var) (ps : list T)
    (value : T) (w : world T) :
  edge1_ o = Some (vs, ps) ->
  build2 o value w
  = (Ok (ret_var (length (var_stack_ w))),
     with_stack
       (var_stack_ w
        ++ [mk_vari value d_zero
              (zip vs ps
               ++ match edge2_ o with
                  | Some (vss, pss) => concat (zip_with zip vss pss)
                  | None => []
                  end)]) w).
Proof.
  intros He. unfold build2, edge_list, bind, push_node, ret. by rewrite He.
Qed.

Lemma dtheta_partials (thetas : list T) (lams : list (list T)) (M_ : nat) :
  Forall (fun lam_n => length lam_n = M_) lams ->
  map (fun m : nat =>
         eigen_sum
           (map (fun col : list T => col !!! m)
              (zip_with (fun (col : list T) (lp : T) =>
                           map (fun l => d_exp (l - lp)%D) col)
                        lams (map (logp_of thetas) lams))))
      (seq 0 M_)
  = map (log_mix_dtheta thetas lams) (seq 0 M_).
Proof.
  intros Hsizes. apply map_ext_in. intros m Hm. apply in_seq in Hm.
  unfold log_mix_dtheta. f_equal.
  rewrite zip_with_map_r, map_map. apply map_ext_in. intros lam_n Hin.
  apply lookup_total_map.
  rewrite (proj1 (Forall_forall _ _) Hsizes lam_n); [lia |].
  by apply list_elem_of_In.
Qed.

Lemma log_mix_valid_run (theta : vec_arg T) (lambda : vecs_arg T) (w : world T) :
  log_mix_inputs_valid w theta lambda = true ->
  let thetas := vec_values w theta in
  let lams := map (lam_values w lambda) (seq 0 (length_mvt lambda)) in
  exists r w',
    log_mix theta lambda w = (Ok r, w')
    /\ scalar_value w' r = log_mix_value thetas lams
    /\ (forall vs, theta = vec_var vs ->
          exists lam_edges,
            r = ret_var (length (var_stack_ w))
            /\ w' = with_stack
                      (var_stack_ w
                       ++ [mk_vari (log_mix_value thetas lams) d_zero
                             (zip vs (map (log_mix_dtheta thetas lams)
                                          (seq 0 (length vs)))
                              ++ lam_edges)]) w
            /\ (is_constant_vecs lambda = true -> lam_edges = [])).
Proof.
  intros Hvalid thetas lams. unfold log_mix_inputs_valid in Hvalid.
  apply andb_prop in Hvalid as [Hvalid Hlam].
  apply andb_prop in Hvalid as [Hvalid Hfin].
  apply andb_prop in Hvalid as [Hbound Hnan].
  assert (Hsizes : Forall (fun lam_n => length lam_n = vec_length theta) lams).
  { unfold lams. apply Forall_forall. intros lam_n Hin.
    apply list_elem_of_In, in_map_iff in Hin as (n & <- & Hn).
    pose proof (proj1 (forallb_forall _ _) Hlam n Hn) as Hv.
    unfold lambda_valid in Hv. apply andb_prop in Hv as [_ Hsz].
    by apply Nat.eqb_eq in Hsz. }
  pass_checks Hbound Hnan Hfin Hlam.
  rewrite theta_dbl_values. fold thetas lams.
  change (map (fun col => log_sum_exp (zip_with d_add col (map d_log thetas))) lams)
    with (map (logp_of thetas) lams).
  fold (log_mix_value thetas lams).
  rewrite (dtheta_partials thetas lams (vec_length theta) Hsizes).
  destruct theta as [v | vs].
  - match goal with
    | |- context [build2 ?o ?value w] =>
        destruct (build2_value o value w) as (r & w' & Hrun & Hval)
    end.
    exists r, w'. repeat split; [done | done |]. intros vs [=].
  - cbn [is_constant_vec negb orb vec_length].
    match goal with
    | |- context [build2 ?o ?value w] =>
        assert (Hedge : edge1_ o
                        = Some (vs, map (log_mix_dtheta thetas lams)
                                        (seq 0 (length vs))))
    end.
    { assert (Hassign :
        edge1_ (assign_edge1
                  (map (log_mix_dtheta thetas lams) (seq 0 (length vs)))
                  (mk_operands_and_partials2 (vec_var vs) lambda))
        = Some (vs, map (log_mix_dtheta thetas lams) (seq 0 (length vs)))).
      { simpl. rewrite length_map, length_seq.
        rewrite drop_ge by (by rewrite length_replicate).
        by rewrite app_nil_r. }
      destruct (negb (is_constant_vecs lambda)); [| done].
      by rewrite edge1_fold_add_edge2. }
    rewrite (build2_edge1 _ _ _ _ _ Hedge).
    eexists _, _. split; [reflexivity |]. split.
    + apply val_at_pushed.
    + intros vs' [= <-]. eexists. split; [reflexivity |].
      split; [reflexivity |].
      intros Hconst. rewrite Hconst. simpl.
      by destruct lambda.
Qed.

Lemma log_mix_valid_double (theta : list T) (lams : list (list T)) (w : world T) :
  log_mix_inputs_valid w (vec_double theta) (vecs_double lams) = true ->
  log_mix (vec_double theta) (vecs_double lams) w
  = (Ok (ret_double (log_mix_value theta lams)), w).
Proof.
  intros Hvalid.
  destruct (log_mix_valid_run _ _ _ Hvalid) as (r & w' & Hrun & Hval & _).
  rewrite Hrun.
  unfold log_mix_inputs_valid in Hvalid.
  apply andb_prop in Hvalid as [Hvalid Hlam].
  apply andb_prop in Hvalid as [Hvalid Hfin].
  apply andb_prop in Hvalid as [Hbound Hnan].
  revert Hrun. pass_checks Hbound Hnan Hfin Hlam.
  cbn [is_constant_vec is_constant_vecs negb orb].
  unfold build2, ret. simpl. intros [= <- <-]. simpl in Hval.
  rewrite Hval.
  replace (map (lam_values w (vecs_double lams)) (seq 0 (length lams)))
    with lams by (symmetry; apply (map_lookup_total_seq lams)).
  reflexivity.
Qed.
End LogMixFacts.

(** ** Matrix-valued nodes *)

Section MatrixFacts.
Context {T : Type} `{Scalar T}.

Lemma adj_at_chain_unary (w : world T) (avi : var) (v a d c : T)
    (es : list (var * T)) (value : T) :
  var_stack_ w !! avi = Some (mk_vari v a es) ->
  let rv := length (var_stack_ w) in
  let s := var_stack_ w ++ [mk_vari value d_zero [(avi, c)]] in
  adj_at (with_stack (chain rv (alter (set_adj d) rv s)) w) avi = (a + d * c)%D.
Proof.
  intros Havi rv s.
  assert (Hlt : avi < rv) by (by apply lookup_lt_Some in Havi).
  assert (Hrv : alter (set_adj d) rv s !! rv
                = Some (mk_vari value d [(avi, c)])).
  { rewrite list_lookup_alter_eq. unfold s, rv.
    by rewrite list_lookup_middle. }
  unfold chain. rewrite Hrv. unfold chain_edges, adj_at; simpl.
  rewrite list_lookup_alter_eq, list_lookup_alter_ne by lia.
  unfold s. rewrite lookup_app_l by done. by rewrite Havi.
Qed.

Section Log1pExpFacts.
Context `{Libm T}.

(** C4.  The matrix version of [log1p_exp] on a [var] matrix [x]:
    - its value is [log1p_exp] applied to each coefficient of the value
      of [x], in the shape of [x];
    - its chain step, with [incoming] in the adjoint block of the
      result, leaves the value of [x] alone and replaces the adjoint
      block of [x] by [x.adj + incoming * inv_logit(x.val)], elementwise;
    - at every position [i] the new adjoint of [x] is what the scalar
      [log1p_exp] leaves in the adjoint of its operand, when the operand
      holds the value and the adjoint [x] has at [i] and the result node
      receives the adjoint [incoming] has at [i]; and the value of the
      scalar result is the matrix result's coefficient at [i]. *)
Theorem log1p_exp_vectorized (x : var_value T) :
  let c := log1p_exp_var_matrix x in
  val (result c) = block_map log1p_exp (val x)
  /\ (forall incoming,
        chain_callback c incoming x
        = mk_var_value (val x)
            (block_zip d_add (adj_block x)
               (block_zip d_mul incoming (block_map inv_logit (val x)))))
  /\ (forall incoming i v a d,
        coeffs (val x) !! i = Some v ->
        coeffs (adj_block x) !! i = Some a ->
        coeffs incoming !! i = Some d ->
        coeffs (val (result c)) !! i = Some (log1p_exp v)
        /\ coeffs (adj_block (chain_callback c incoming x)) !! i
           = Some (a + d * inv_logit v)%D
        /\ forall (w : world T) (avi : var) es,
             var_stack_ w !! avi = Some (mk_vari v a es) ->
             exists rv w1,
               log1p_exp_var avi w = (Ok rv, w1)
               /\ val_at w1 rv = log1p_exp v
               /\ adj_at (with_stack
                            (chain rv (alter (set_adj d) rv (var_stack_ w1)))
                            w1) avi
                  = (a + d * inv_logit v)%D).
Proof.
  intros c. split; [done |]. split; [done |].
  intros incoming i v a d Hv Ha Hd. split; [| split].
  - simpl. change (map log1p_exp (coeffs (val x)))
      with (log1p_exp <$> coeffs (val x)).
    by rewrite list_lookup_fmap, Hv.
  - simpl. rewrite !lookup_zip_with, Ha, Hd. simpl.
    change (map inv_logit (coeffs (val x)))
      with (inv_logit <$> coeffs (val x)).
    by rewrite list_lookup_fmap, Hv.
  - intros w avi es Havi.
    unfold log1p_exp_var, log1p_exp_v_vari, bind, value_of_var, push_node.
    assert (Hval : val_at w avi = v) by (unfold val_at; by rewrite Havi).
    rewrite Hval. eexists _, _. split; [reflexivity |]. split.
    + unfold val_at; simpl. by rewrite list_lookup_middle.
    + simpl. apply (adj_at_chain_unary w avi v a d (inv_logit v) es). done.
Qed.
End Log1pExpFacts.

Section TruncFacts.
Variable d_trunc : T -> T.
Variable NOT_A_NUMBER : T.
Hypothesis NOT_A_NUMBER_isnan : isnan NOT_A_NUMBER = true.

(** C10.  The reverse-pass callback of [trunc] on a [var_value] matrix
    [A] gives the same operand node whatever result node it is handed,
    so it does not read the result's adjoint; it leaves the value of
    [A] alone; and at every position it leaves the adjoint of [A] as it
    was when the value of [A] there is not NaN, and makes it
    [NOT_A_NUMBER], a NaN, when the value there is NaN. *)
Theorem trunc_callback_frame (A : var_value T) :
  let c := trunc d_trunc NOT_A_NUMBER A in
  (forall res1 res2, callback c res1 A = callback c res2 A)
  /\ (forall incoming, val (chain_callback c incoming A) = val A)
  /\ (forall incoming i v a,
        coeffs (val A) !! i = Some v ->
        coeffs (adj_block A) !! i = Some a ->
        exists a',
          coeffs (adj_block (chain_callback c incoming A)) !! i = Some a'
          /\ (isnan v = false -> a' = a)
          /\ (isnan v = true -> a' = NOT_A_NUMBER /\ isnan a' = true)).
Proof.
  intros c. split; [done |]. split; [done |].
  intros incoming i v a Hv Ha. simpl. unfold select.
  rewrite lookup_zip_with.
  change (map isnan (coeffs (val A))) with (isnan <$> coeffs (val A)).
  rewrite list_lookup_fmap, Hv, Ha. simpl.
  eexists. split; [reflexivity |].
  destruct (isnan v); split; try done.
Qed.
End TruncFacts.
End MatrixFacts.

(** ** The mixture example in exact arithmetic *)

Section LogMixReal.
Import RealSample.

Lemma Rle_dec_true (x y : R) :
  (x <= y)%R -> (if Rle_dec x y then true else false) = true.
Proof. intros Hxy. by destruct (Rle_dec x y). Qed.

Lemma Rle_dec_false (x y : R) :
  (y < x)%R -> (if Rle_dec x y then true else false) = false.
Proof. intros Hxy. destruct (Rle_dec x y); [lra | done]. Qed.



Lemma theta_valid_example (w : world R) (th : vec_arg R) :
  vec_values w th = theta ->
  forallb (fun x => (d_zero <=? x)%D && (x <=? d_one)%D) (vec_values w th)
  && forallb (fun x => negb (isnan x)) (vec_values w th)
  && forallb isfinite (vec_values w th) = true.
Proof.
  intros ->. unfold theta. simpl.
  rewrite !Rle_dec_true by lra. reflexivity.
Qed.

Lemma eigen_sum_Rsum (v : list R) : eigen_sum v = Rsum v.
Proof.
  destruct v as [| x v]; simpl; [done |].
  revert x. induction v as [| y v IH]; intros x; simpl; [lra |].
  rewrite IH. simpl. lra.
Qed.


End LogMixReal.


(** * The statements at concrete inputs *)

Section ConcreteRuns.
Import Sample.

Example static_cast_int_wraps : static_cast_int (2 ^ 31) = (- 2 ^ 31)%Z.
Proof. reflexivity. Qed.

Example trunc_rounds_toward_zero :
  Binary64.trunc (binary_normalize Binary64.prec Binary64.emax 5 (-1) false) = d 2
  /\ Binary64.trunc (binary_normalize Binary64.prec Binary64.emax (-5) (-1) true)
     = d (-2)
  /\ Binary64.trunc Binary64.quiet_NaN = Binary64.quiet_NaN.
Proof. vm_compute. repeat split. Qed.

Example type_count_stops_at_functor :
  type_count is_stan_type
    [AData (DMatrix col3); AData (DMatrix col4); AFunctor row_sum;
     AData (DScalar (d 1))] 0 = 2.
Proof. reflexivity. Qed.

Example rowwise_runs :
  exists call,
    rowwise [AData (DMatrix col3); AData (DMatrix col3); AFunctor row_sum;
             AData (DScalar (d 1))] = Some call
    /\ fst (call tape)
       = Raise (undefined_behaviour "read through a dangling reference").
Proof. eexists. split; [reflexivity |]. vm_compute. reflexivity. Qed.

Example gradient_of_f_runs :
  fst (gradient_of_f f (d 2) [0] 0 (nested_tape (d 5))) = Ok (d 2).
Proof. vm_compute. reflexivity. Qed.

Example integrate_1d_tsc_runs :
  integrate_1d_tsc two_point_plan f (d 0) (d 1) (param_var [0]) tol tol tape
  = (Ok (ret_var 1),
     mk_world [mk_vari (d 3) d_zero []; mk_vari (d 3) d_zero [(0, d 1)]] []
       [EvQuadrature; EvCallF (d 0) [d 3]; EvCallF (d 1) [d 3];
        EvQuadrature; EvCallFvar (d 0) [1]; EvCallFvar (d 1) [1]]).
Proof. vm_compute. reflexivity. Qed.

Example trunc_callback_runs :
  coeffs (adj_block
            (chain_callback (trunc Binary64.trunc Binary64.quiet_NaN nan_matrix)
               (mk_block 1 2 [d 7; d 7]) nan_matrix))
  = [d 2; Binary64.quiet_NaN].
Proof. vm_compute. reflexivity. Qed.

Lemma analytic_gradient_quadratures_witness :
  isfinite (d 0) = true /\ isfinite (d 1) = true
  /\ integrate_1d_tsc_tscg two_point_plan f g (d 0) (d 1) (param_var [0])
       tol tol tape
     = (Ok (ret_var 1),
        mk_world [mk_vari (d 3) d_zero []; mk_vari (d 3) d_zero [(0, d 1)]] []
          [EvQuadrature; EvCallG (d 0) [d 3] 1; EvCallG (d 1) [d 3] 1;
           EvQuadrature; EvCallF (d 0) [d 3]; EvCallF (d 1) [d 3]]).
Proof.
  split; [reflexivity |]. split; [reflexivity |].
  destruct (analytic_gradient_quadratures (H := Binary64.scalar)
              two_point_plan f g (d 0) (d 1) [0]
              tol tol tape eq_refl eq_refl eq_refl eq_refl eq_refl)
    as [Hrun _].
  rewrite Hrun. vm_compute. reflexivity.
Defined.

Lemma nonfinite_bound_rejected_witness :
  isfinite Binary64.infinity = false
  /\ exists name,
       integrate_1d_tsc_tscg two_point_plan f g Binary64.infinity (d 1)
         (param_var [0]) tol tol tape
       = (Raise (domain_error "integrate_1d_tsc" name), tape)
       /\ integrate_1d_tsc two_point_plan f Binary64.infinity (d 1)
            (param_var [0]) tol tol tape
          = (Raise (domain_error "integrate_1d_tsc" name), tape).
Proof.
  split; [reflexivity |].
  apply nonfinite_bound_rejected. left. reflexivity.
Defined.

Lemma constant_params_single_quadrature_witness :
  isfinite (d 0) = true /\ isfinite (d 1) = true
  /\ integrate_1d_tsc_tscg two_point_plan f g (d 0) (d 1) (param_double [d 3])
       tol tol tape
     = (Ok (ret_double (d 3)),
        record_events [EvQuadrature; EvCallF (d 0) [d 3]; EvCallF (d 1) [d 3]]
          tape)
  /\ integrate_1d_tsc two_point_plan f (d 0) (d 1) (param_double [d 3])
       tol tol tape
     = (Ok (ret_double (d 3)),
        record_events [EvQuadrature; EvCallF (d 0) [d 3]; EvCallF (d 1) [d 3]]
          tape).
Proof.
  split; [reflexivity |]. split; [reflexivity |].
  destruct (constant_params_single_quadrature (H := Binary64.scalar)
              two_point_plan f g (d 0) (d 1)
              [d 3] tol tol tape eq_refl eq_refl)
    as (Hg & Hf & _).
  rewrite Hg, Hf. vm_compute. split; reflexivity.
Defined.

Lemma nested_region_released_witness :
  let out := integrate_1d_tsc two_point_plan (f_throws (std_exception "oracle"))
               (d 0) (d 1) (param_var [0]) tol tol tape in
  fst out = Raise (std_exception "oracle")
  /\ nested_var_stack_sizes_ (snd out) = nested_var_stack_sizes_ tape
  /\ length (var_stack_ (snd out)) = length (var_stack_ tape).
Proof.
  intros out.
  pose proof (proj2 (nested_region_released two_point_plan
                       (f_throws (std_exception "oracle")) (d 0) (d 1) [0]
                       tol tol)
                tape (fst out) (snd out) (surjective_pairing out)) as Hrel.
  assert (Hout : fst out = Raise (std_exception "oracle"))
    by (vm_compute; reflexivity).
  rewrite Hout in Hrel. split; [exact Hout |]. apply Hrel. reflexivity.
Defined.

(** The claim C2 as it is written fails when the functor throws an object
    that is not a [std::exception]: the clause does not match, the
    handler does not run, and the call leaves the nested region open
    with its nodes on the tape. *)
Lemma nested_region_leaks_on_foreign_throw :
  let out := integrate_1d_tsc two_point_plan (f_throws (thrown_object 0))
               (d 0) (d 1) (param_var [0]) tol tol tape in
  fst out = Raise (thrown_object 0)
  /\ nested_var_stack_sizes_ (snd out) = [1]
  /\ nested_var_stack_sizes_ (snd out) <> nested_var_stack_sizes_ tape
  /\ length (var_stack_ (snd out)) = 3
  /\ length (var_stack_ (snd out)) <> length (var_stack_ tape).
Proof. vm_compute. repeat split; discriminate. Qed.

(** The claim C9 as it is written fails: the value also depends on the
    nodes that earlier calls have left in the region.  A query at [x = 0]
    leaves a node whose coefficient is infinite; the next query at
    [x = 1], with the same [f], the same parameter and the same parameter
    value, sets its adjoint to zero and chains it again, and
    [0 * infinity] turns the adjoint of the parameter into NaN.  In the
    region without that node the same query returns [1]. *)
Lemma gradient_of_f_depends_on_earlier_nodes :
  let fresh := FailingSample.fresh_region in
  let used := snd (gradient_of_f FailingSample.f_ratio (d 0) [0] 0 fresh) in
  map (val_at used) [0] = map (val_at fresh) [0]
  /\ nested_var_stack_sizes_ used = nested_var_stack_sizes_ fresh
  /\ fst (gradient_of_f FailingSample.f_ratio (d 1) [0] 0 fresh) = Ok (d 1)
  /\ fst (gradient_of_f FailingSample.f_ratio (d 1) [0] 0 used)
     = Ok Binary64.quiet_NaN
  /\ fst (gradient_of_f FailingSample.f_ratio (d 1) [0] 0 used)
     <> fst (gradient_of_f FailingSample.f_ratio (d 1) [0] 0 fresh).
Proof. vm_compute. repeat split. discriminate. Qed.

Lemma gradient_of_f_ignores_stale_adjoints_witness :
  nested_var_stack_sizes_ (nested_tape (d 5)) = [0]
  /\ same_but_adjoints (nested_tape (d 5)) (nested_tape (d 0))
  /\ fst (gradient_of_f f (d 2) [0] 0 (nested_tape (d 5)))
     = fst (gradient_of_f f (d 2) [0] 0 (nested_tape (d 0))).
Proof.
  assert (Hsame : same_but_adjoints (nested_tape (d 5)) (nested_tape (d 0)))
    by (split; reflexivity).
  split; [reflexivity |]. split; [exact Hsame |].
  apply (gradient_of_f_ignores_stale_adjoints (H := Binary64.scalar)
           f (d 2) [0] 0
           (nested_tape (d 5)) (nested_tape (d 0)) 0 [] eq_refl Hsame).
  lia.
Defined.

Lemma rowwise_rejects_unequal_rows_witness :
  Exists (fun x : matrix Binary64.double => length x <> length col3) [col4]
  /\ exists call,
       rowwise [AData (DMatrix col3); AData (DMatrix col4); AFunctor row_sum]
       = Some call
       /\ call tape
          = (Raise (invalid_argument
                      "Inputs to be iterated over must have the same number of rows!"),
             tape).
Proof.
  assert (Hrows : Exists (fun x : matrix Binary64.double =>
                            length x <> length col3) [col4])
    by (constructor; simpl; lia).
  split; [exact Hrows |].
  exact (rowwise_rejects_unequal_rows col3 [col4] row_sum [] tape Hrows).
Defined.

Lemma trunc_callback_frame_witness :
  isnan Binary64.quiet_NaN = true
  /\ exists a',
       coeffs (adj_block
                 (chain_callback
                    (trunc Binary64.trunc Binary64.quiet_NaN nan_matrix)
                    (mk_block 1 2 [d 7; d 7]) nan_matrix)) !! 1
       = Some a'
       /\ isnan a' = true.
Proof.
  split; [reflexivity |].
  destruct (proj2 (proj2 (trunc_callback_frame (H := Binary64.scalar)
                            Binary64.trunc
                            Binary64.quiet_NaN eq_refl nan_matrix))
              (mk_block 1 2 [d 7; d 7]) 1 Binary64.quiet_NaN (d 3)
              eq_refl eq_refl)
    as (a' & Hlookup & _ & Hnan).
  exists a'. split; [exact Hlookup |]. apply Hnan. reflexivity.
Defined.
End ConcreteRuns.

Section RealRuns.
Import RealSample.

Lemma log1p_exp_vectorized_witness :
  coeffs (val x) !! 0 = Some 0%R
  /\ coeffs (adj_block x) !! 0 = Some 5%R
  /\ coeffs (adj_block
               (chain_callback (log1p_exp_var_matrix x)
                  (mk_block 1 2 [1; 1]%R) x)) !! 0
     = Some (5 + 1 * inv_logit 0)%R.
Proof.
  split; [reflexivity |]. split; [reflexivity |].
  exact (proj1 (proj2 (proj2 (proj2 (log1p_exp_vectorized x))
                         (mk_block 1 2 [1; 1]%R) 0 0%R 5%R 1%R
                         eq_refl eq_refl eq_refl))).
Defined.



Lemma log_mix_unchecked_read_witness :
  0 < length_mvt (vecs_double lambda_by_rows)
  /\ length (lam_values empty_tape (vecs_double lambda_by_rows) 0)
     < vec_length (vec_double theta)
  /\ log_mix (vec_double theta) (vecs_double lambda_by_rows) empty_tape
     = (Raise (undefined_behaviour "lam_vec[n][m]"), empty_tape).
Proof.
  assert (Hn : 0 < length_mvt (vecs_double lambda_by_rows)) by (simpl; lia).
  assert (Hshort : length (lam_values empty_tape (vecs_double lambda_by_rows) 0)
                   < vec_length (vec_double theta)) by (simpl; lia).
  split; [exact Hn |]. split; [exact Hshort |].
  exact (proj1 (log_mix_unchecked_read (vec_double theta)
                  (vecs_double lambda_by_rows) empty_tape 0 Hn Hshort)).
Defined.
End RealRuns.

(** * Further properties of the code *)

(** ** The integrator and the tape *)

Section IntegrateFrames.
Context {T : Type} `{Scalar T}.
Variable plan : T -> T -> T -> T -> quad_plan T.

Lemma only_logs_ret {A} (a : A) : only_logs (ret a : M T A).
Proof. intros w r w' [= <- <-]. done. Qed.

Lemma only_logs_throw {A} (e : exn) : only_logs (throw e : M T A).
Proof. intros w r w' [= <- <-]. done. Qed.

Lemma only_logs_lift {A} (o : outcome A) : only_logs (lift o : M T A).
Proof. intros w r w' [= <- <-]. done. Qed.

Lemma only_logs_log_event (e : event T) : only_logs (log_event e).
Proof. intros w r w' [= <- <-]. done. Qed.

Lemma only_logs_value_of (vs : list var) : only_logs (value_of vs).
Proof. intros w r w' [= <- <-]. done. Qed.

Lemma only_logs_check_finite (function name : string) (x : T) :
  only_logs (check_finite function name x).
Proof.
  unfold check_finite. destruct (isfinite x);
    [apply only_logs_ret | apply only_logs_throw].
Qed.

Lemma only_logs_bind {A B} (c : M T A) (k : A -> M T B) :
  only_logs c -> (forall a, only_logs (k a)) -> only_logs (bind c k).
Proof.
  intros Hc Hk w r w' Hrun.
  apply bind_inv in Hrun as [(a & w1 & Hc1 & Hk1) | (e & Hc1 & _)].
  - apply Hc in Hc1 as [Hs1 Hn1]. apply Hk in Hk1 as [Hs2 Hn2].
    split; congruence.
  - by apply Hc in Hc1.
Qed.

Lemma only_logs_run_plan (p : quad_plan T) (oracle : T -> M T T) :
  (forall x, only_logs (oracle x)) -> only_logs (run_plan p oracle).
Proof.
  intros Ho. induction p as [r | x k IH | e]; simpl.
  - apply only_logs_ret.
  - apply only_logs_bind; [apply Ho | done].
  - apply only_logs_throw.
Qed.

Lemma only_logs_de_integrator (oracle : T -> M T T) (a b tre tae : T) :
  (forall x, only_logs (oracle x)) ->
  only_logs (de_integrator plan oracle a b tre tae).
Proof.
  intros Ho. unfold de_integrator.
  apply only_logs_bind; [apply only_logs_log_event |]. intros _.
  by apply only_logs_run_plan.
Qed.

Lemma only_logs_for_range {S} (body : nat -> S -> M T S) (count n : nat) (s : S) :
  (forall n s, only_logs (body n s)) -> only_logs (for_range n count body s).
Proof.
  intros Hb. revert n s. induction count as [| count IH]; intros n s; simpl.
  - apply only_logs_ret.
  - apply only_logs_bind; [apply Hb | intros s'; apply IH].
Qed.

Lemma only_logs_call_f (f : functor T) (x : T) (theta : list T) :
  only_logs (call_f f x theta).
Proof.
  unfold call_f. apply only_logs_bind; [apply only_logs_log_event |].
  intros _. apply only_logs_lift.
Qed.

Lemma only_logs_call_g (g : grad_functor T) (x : T) (theta : list T) (n : Z) :
  only_logs (call_g g x theta n).
Proof.
  unfold call_g. apply only_logs_bind; [apply only_logs_log_event |].
  intros _. apply only_logs_lift.
Qed.

Lemma add_partials_shape (vs : list var) (grad : list T) (count n : nat)
    (o : operands_and_partials T) :
  edge1_operands_ (add_partials n count grad o) = edge1_operands_ o
  /\ length (edge1_partials_ (add_partials n count grad o))
     = length (edge1_partials_ o).
Proof.
  revert n o. induction count as [| count IH]; intros n o; simpl; [done |].
  destruct (IH (S n) (partials_add n (grad !!! n) o)) as [Hops Hlen].
  rewrite Hops, Hlen. simpl. by rewrite length_alter.
Qed.

(** X1.  What [integrate_1d_tsc_tscg] does to the tape, whatever its
    arguments and its outcome: it never touches the stack of nested
    regions; when it throws, or returns a [double], the tape is the one it
    was given; when it returns a [var], the parameters are [var]s, and the
    tape is the one it was given followed by one node, the returned one,
    whose adjoint is zero and whose operands are the parameters in their
    order, one coefficient each. *)
Theorem integrate_1d_tsc_tscg_tape_effect (f : functor T) (g : grad_functor T)
    (a b : T) (param : params T) (tre tae : T) (w : world T) r w' :
  integrate_1d_tsc_tscg plan f g a b param tre tae w = (r, w') ->
  nested_var_stack_sizes_ w' = nested_var_stack_sizes_ w
  /\ match r with
     | Raise _ | Ok (ret_double _) => var_stack_ w' = var_stack_ w
     | Ok (ret_var v) =>
         v = length (var_stack_ w)
         /\ exists vs value partials,
              param = param_var vs
              /\ length partials = length vs
              /\ var_stack_ w'
                 = var_stack_ w ++ [mk_vari value d_zero (zip vs partials)]
     end.
Proof.
  unfold integrate_1d_tsc_tscg. intros Hrun.
  apply bind_inv in Hrun as [(u1 & w1 & Hc1 & Hrun) | (e & Hc1 & ->)];
    apply only_logs_check_finite in Hc1 as [Hs1 Hn1];
    [| by rewrite Hs1, Hn1].
  apply bind_inv in Hrun as [(u2 & w2 & Hc2 & Hrun) | (e & Hc2 & ->)];
    apply only_logs_check_finite in Hc2 as [Hs2 Hn2];
    [| by rewrite Hs2, Hn2, Hs1, Hn1].
  destruct param as [ds | vs].
  - assert (Hlogs : only_logs
              (r <- de_integrator plan (fun x => call_f f x ds) a b tre tae ;;
               ret (ret_double r))).
    { apply only_logs_bind; [| intros; apply only_logs_ret].
      apply only_logs_de_integrator. intros x. apply only_logs_call_f. }
    pose proof Hrun as Hshape.
    apply Hlogs in Hrun as [Hs Hn].
    assert (Hdouble : match r with
                      | Ok (ret_var _) => False
                      | _ => True
                      end).
    { apply bind_inv in Hshape as [(d & w3 & _ & Hret) | (e & _ & ->)];
        [| done]. by injection Hret as <- _. }
    split; [congruence |].
    destruct r as [[d | v] | e]; [congruence | done | congruence].
  - apply bind_inv in Hrun as [(theta & w3 & Hc3 & Hrun) | (e & Hc3 & ->)];
      apply only_logs_value_of in Hc3 as [Hs3 Hn3];
      [| split; congruence].
    apply bind_inv in Hrun as [(grad & w4 & Hc4 & Hrun) | (e & Hc4 & ->)].
    2:{ apply only_logs_for_range in Hc4 as [Hs4 Hn4]; [split; congruence |].
        intros n s. apply only_logs_bind; [| intros; apply only_logs_ret].
        apply only_logs_de_integrator. intros x. apply only_logs_call_g. }
    apply only_logs_for_range in Hc4 as [Hs4 Hn4].
    2:{ intros n s. apply only_logs_bind; [| intros; apply only_logs_ret].
        apply only_logs_de_integrator. intros x. apply only_logs_call_g. }
    apply bind_inv in Hrun as [(val_ & w5 & Hc5 & Hrun) | (e & Hc5 & ->)];
      apply only_logs_de_integrator in Hc5 as [Hs5 Hn5];
      try (intros x; apply only_logs_call_f);
      [| split; congruence].
    unfold build, bind, push_node, ret in Hrun. injection Hrun as <- <-.
    simpl.
    destruct (add_partials_shape vs grad (length vs) 0
                (mk_operands_and_partials vs)) as [Hops Hlen].
    split; [congruence |]. split; [congruence |].
    eexists vs, val_, _. split; [done |]. split.
    + rewrite Hlen. simpl. apply length_replicate.
    + rewrite Hops. simpl. f_equal. congruence.
Qed.

Section GradientLoopFailure.
Variables (g : grad_functor T) (a b tre tae : T) (theta : list T).

Let G (k : nat) : outcome T * list T :=
  quad_run (plan a b tre tae) (fun x => g x theta (Z.of_nat k)).

Lemma gradient_loop_fail (j c n0 : nat) (l : list T) (w0 : world T) (e : exn) :
  length l = n0 -> j < c ->
  forallb (fun k => is_ok (fst (G k))) (seq (S n0) j) = true ->
  fst (G (n0 + j + 1)) = Raise e ->
  (Z.of_nat (n0 + c) < 2 ^ 31)%Z ->
  for_range n0 c
    (fun n grad =>
       r <- de_integrator plan
              (fun x => call_g g x theta (static_cast_int (Z.of_nat (n + 1))))
              a b tre tae ;;
       ret (<[n := r]> grad))
    (l ++ replicate c d_zero) w0
  = (Raise e,
     record_events
       (concat (map (fun n => quadrature_events
                                (fun x => EvCallG x theta (Z.of_nat (n + 1)))
                                (snd (G (n + 1))))
                    (seq n0 (S j)))) w0).
Proof.
  revert c n0 l w0.
  induction j as [| j IH]; intros c n0 l w0 Hl Hj Hok He Hint;
    (destruct c as [| c]; [lia |]);
    cbn [for_range]; unfold bind at 1; unfold bind at 1;
    rewrite static_cast_int_small by lia;
    pose proof (de_integrator_instrumented plan
                  (fun x => EvCallG x theta (Z.of_nat (n0 + 1)))
                  (fun x => g x theta (Z.of_nat (n0 + 1)))
                  a b tre tae w0) as Hq;
    unfold call_g; rewrite Hq; fold (G (n0 + 1)).
  - replace (n0 + 0 + 1) with (n0 + 1) in He by lia. rewrite He.
    cbn [seq map concat]. by rewrite app_nil_r.
  - simpl in Hok. apply andb_prop in Hok as [Hok0 Hok].
    replace (S n0) with (n0 + 1) in Hok0 by lia.
    destruct (fst (G (n0 + 1))) as [r | e0] eqn:Hr; [| discriminate].
    unfold ret at 1.
    rewrite insert_app_r_alt by lia.
    replace (n0 - length l) with 0 by lia. cbn [replicate insert list_insert].
    rewrite (cons_middle r l), app_assoc.
    rewrite (IH c (S n0) (l ++ [r]) _ );
      [| rewrite length_app; simpl; lia | lia | done
       | by replace (S n0 + j + 1) with (n0 + S j + 1) by lia | lia].
    cbn [seq map concat].
    by rewrite record_events_app.
Qed.
End GradientLoopFailure.

Lemma f_calls_app (es1 es2 : list (event T)) :
  f_calls (es1 ++ es2) = f_calls es1 + f_calls es2.
Proof. unfold f_calls. by rewrite filter_app, length_app. Qed.

Lemma f_calls_g_quadratures (theta : list T) (pts : nat -> list T)
    (ns : list nat) :
  f_calls (concat (map (fun n => quadrature_events
                                   (fun x => EvCallG x theta (Z.of_nat (n + 1)))
                                   (pts n)) ns)) = 0.
Proof.
  induction ns as [| n ns IH]; [done |].
  cbn [map concat]. rewrite f_calls_app, IH, Nat.add_0_r.
  unfold f_calls, quadrature_events.
  rewrite filter_cons, decide_False by discriminate.
  induction (pts n) as [| x l IHl]; simpl; [done |].
  by rewrite filter_cons, decide_False by discriminate.
Qed.

(** X2.  In [integrate_1d_tsc_tscg] the gradients come first: when the
    quadrature of [g(., theta, j + 1)] is the first to throw, the call
    throws the same after [j + 1] quadratures, and [f] was never
    evaluated. *)
Theorem integrate_1d_tsc_tscg_gradient_failure (f : functor T)
    (g : grad_functor T) (a b : T) (vs : list var) (tre tae : T)
    (w : world T) (j : nat) (e : exn) :
  let N := length vs in
  let theta := map (val_at w) vs in
  let G := fun k : nat =>
    quad_run (plan a b tre tae) (fun x => g x theta (Z.of_nat k)) in
  let events :=
    concat (map (fun n : nat => quadrature_events
                            (fun x => EvCallG x theta (Z.of_nat (n + 1)))
                            (snd (G (n + 1))))
                (seq 0 (S j))) in
  isfinite a = true -> isfinite b = true ->
  (Z.of_nat N < 2 ^ 31)%Z ->
  j < N ->
  forallb (fun k : nat => is_ok (fst (G k))) (seq 1 j) = true ->
  fst (G (j + 1)) = Raise e ->
  integrate_1d_tsc_tscg plan f g a b (param_var vs) tre tae w
  = (Raise e, record_events events w)
  /\ f_calls events = 0
  /\ quadratures events = j + 1.
Proof.
  intros N theta G events Ha Hb HN Hj Hok He. split; [| split].
  - unfold integrate_1d_tsc_tscg, check_finite. rewrite Ha, Hb.
    unfold bind at 1. unfold ret at 1. unfold bind at 1. unfold ret at 1.
    unfold bind at 1. unfold value_of at 1. fold theta. fold N.
    unfold bind at 1.
    pose proof (gradient_loop_fail g a b tre tae theta j N 0 [] w e
                  eq_refl Hj Hok He HN) as Hloop.
    rewrite app_nil_l in Hloop. by rewrite Hloop.
  - apply (f_calls_g_quadratures theta (fun n => snd (G (n + 1)))).
  - unfold events.
    rewrite (quadratures_concat
               (fun n x => EvCallG x theta (Z.of_nat (n + 1)))
               (fun n => snd (G (n + 1)))) by done.
    rewrite length_seq. lia.
Qed.

(** X3.  In [integrate_1d_tsc] the value comes first: when the quadrature
    of [f] at the plain parameter values throws, whatever it throws, the
    call throws the same, no nested region was ever opened and no node
    created; the world has only gained the events of that one
    quadrature. *)
Theorem integrate_1d_tsc_value_failure (f : functor T) (a b : T)
    (param : params T) (tre tae : T) (w : world T) (e : exn) :
  let theta := match param with
               | param_double ds => ds
               | param_var vs => map (val_at w) vs
               end in
  let F := quad_run (plan a b tre tae) (fun x => at_double f x theta) in
  isfinite a = true -> isfinite b = true ->
  fst F = Raise e ->
  integrate_1d_tsc plan f a b param tre tae w
  = (Raise e, record_events (quadrature_events (fun x => EvCallF x theta) (snd F)) w).
Proof.
  intros theta F Ha Hb HF.
  unfold integrate_1d_tsc, check_finite. rewrite Ha, Hb.
  unfold bind at 1. unfold ret at 1. unfold bind at 1. unfold ret at 1.
  unfold bind at 1.
  assert (Htheta : value_of_params param w = (Ok theta, w))
    by (by destruct param).
  rewrite Htheta. unfold bind at 1.
  pose proof (de_integrator_instrumented plan
                (fun x => EvCallF x theta) (fun x => at_double f x theta)
                a b tre tae w) as Hq.
  unfold call_f. rewrite Hq. fold F. by rewrite HF.
Qed.

(** *** Nodes are only appended *)

Lemma only_appends_same {A} (c : M T A) :
  only_logs c -> only_appends c.
Proof.
  intros Hc w r w' Hrun. apply Hc in Hrun as [Hs Hn].
  split; [done |]. exists []. by rewrite Hs, app_nil_r.
Qed.

Lemma only_appends_bind {A B} (c : M T A) (k : A -> M T B) :
  only_appends c -> (forall a, only_appends (k a)) -> only_appends (bind c k).
Proof.
  intros Hc Hk w r w' Hrun.
  apply bind_inv in Hrun as [(a & w1 & Hc1 & Hk1) | (e & Hc1 & _)].
  - apply Hc in Hc1 as [Hn1 [l1 Hs1]]. apply Hk in Hk1 as [Hn2 [l2 Hs2]].
    split; [congruence |]. exists (l1 ++ l2). by rewrite Hs2, Hs1, app_assoc.
  - by apply Hc in Hc1.
Qed.

Lemma only_appends_push_node (v : T) (edges : list (var * T)) :
  only_appends (push_node v edges).
Proof.
  intros w r w' [= <- <-]. simpl. split; [done |].
  eexists. by rewrite map_app.
Qed.

Lemma only_appends_value_of_var (v : var) : only_appends (value_of_var v).
Proof. apply only_appends_same. intros w r w' [= <- <-]. done. Qed.

Lemma only_appends_adj (v : var) : only_appends (adj v).
Proof. apply only_appends_same. intros w r w' [= <- <-]. done. Qed.

Lemma only_appends_to_var (ds : list T) : only_appends (to_var ds).
Proof.
  induction ds as [| d ds IH]; simpl.
  - apply only_appends_same, only_logs_ret.
  - apply only_appends_bind; [apply only_appends_push_node |]. intros v.
    apply only_appends_bind; [apply IH |]. intros vs.
    apply only_appends_same, only_logs_ret.
Qed.

Lemma only_appends_set_zero_all_adjoints_nested :
  only_appends set_zero_all_adjoints_nested.
Proof.
  intros w r w'. unfold set_zero_all_adjoints_nested.
  destruct (nested_var_stack_sizes_ w) as [| c rest] eqn:Hn;
    intros [= <- <-]; simpl.
  - split; [done |]. exists []. by rewrite app_nil_r.
  - split; [done |]. exists []. by rewrite skeleton_zero_from, app_nil_r.
Qed.

Lemma skeleton_chain_edges (a : T) (edges : list (var * T)) (s : list (vari T)) :
  map skeleton (chain_edges a edges s) = map skeleton s.
Proof.
  unfold chain_edges. revert s.
  induction edges as [| e edges IH]; intros s; simpl; [done |].
  by rewrite IH, skeleton_alter.
Qed.

Lemma skeleton_reverse_pass (from count : nat) (s : list (vari T)) :
  map skeleton (reverse_pass from count s) = map skeleton s.
Proof.
  revert s. induction count as [| count IH]; intros s; simpl; [done |].
  rewrite IH. unfold chain.
  destruct (s !! (from + count)); [apply skeleton_chain_edges | done].
Qed.

Lemma only_appends_grad (v : var) : only_appends (grad v).
Proof.
  intros w r w' [= <- <-]. simpl. split; [done |]. exists [].
  by rewrite skeleton_reverse_pass, skeleton_alter, app_nil_r.
Qed.

Lemma only_appends_run_ad (p : ad_prog T) : only_appends (run_ad p).
Proof.
  induction p as [r | e | v k IH | v edges k IH]; simpl.
  - apply only_appends_same, only_logs_ret.
  - apply only_appends_same, only_logs_throw.
  - apply only_appends_bind; [apply only_appends_value_of_var | done].
  - apply only_appends_bind; [apply only_appends_push_node | done].
Qed.

Lemma only_appends_run_plan (p : quad_plan T) (oracle : T -> M T T) :
  (forall x, only_appends (oracle x)) -> only_appends (run_plan p oracle).
Proof.
  intros Ho. induction p as [r | x k IH | e]; simpl.
  - apply only_appends_same, only_logs_ret.
  - apply only_appends_bind; [apply Ho | done].
  - apply only_appends_same, only_logs_throw.
Qed.

Lemma only_appends_de_integrator (oracle : T -> M T T) (a b tre tae : T) :
  (forall x, only_appends (oracle x)) ->
  only_appends (de_integrator plan oracle a b tre tae).
Proof.
  intros Ho. unfold de_integrator.
  apply only_appends_bind; [apply only_appends_same, only_logs_log_event |].
  intros _. by apply only_appends_run_plan.
Qed.

Lemma only_appends_for_range {S} (body : nat -> S -> M T S) (count n : nat)
    (s : S) :
  (forall n s, only_appends (body n s)) ->
  only_appends (for_range n count body s).
Proof.
  intros Hb. revert n s. induction count as [| count IH]; intros n s; simpl.
  - apply only_appends_same, only_logs_ret.
  - apply only_appends_bind; [apply Hb | intros s'; apply IH].
Qed.

Lemma only_appends_gradient_of_f (f : functor T) (x : T) (param : list var)
    (param_n : var) :
  only_appends (gradient_of_f f x param param_n).
Proof.
  unfold gradient_of_f.
  apply only_appends_bind; [apply only_appends_set_zero_all_adjoints_nested |].
  intros _. apply only_appends_bind.
  { unfold call_f_var.
    apply only_appends_bind; [apply only_appends_same, only_logs_log_event |].
    intros _. apply only_appends_run_ad. }
  intros r. apply only_appends_bind; [apply only_appends_grad |].
  intros _. apply only_appends_adj.
Qed.

Lemma skeleton_take (s1 s2 : list (vari T)) (added : list (T * list (var * T))) :
  map skeleton s2 = map skeleton s1 ++ added ->
  map skeleton (take (length s1) s2) = map skeleton s1.
Proof.
  intros Hs.
  change (skeleton <$> take (length s1) s2 = skeleton <$> s1).
  rewrite fmap_take.
  change (skeleton <$> s2) with (map skeleton s2). rewrite Hs.
  apply take_app_length'. by rewrite length_map.
Qed.

Lemma try_block_appends (f : functor T) (a b : T) (vs : list var) (tre tae : T)
    (results : list T) (w1 : world T) r w2 :
  integrate_1d_tsc_try_block plan f a b vs tre tae results w1 = (r, w2) ->
  nested_var_stack_sizes_ w2
  = length (var_stack_ w1) :: nested_var_stack_sizes_ w1
  /\ exists added,
       map skeleton (var_stack_ w2) = map skeleton (var_stack_ w1) ++ added.
Proof.
  unfold integrate_1d_tsc_try_block. intros Hrun.
  apply bind_inv in Hrun as [(u & w1' & Hstart & Hrest) | (e & Hstart & _)];
    [| discriminate].
  injection Hstart as _ <-.
  assert (Hg : only_appends
    (theta <- value_of vs ;;
     clean_param <- to_var theta ;;
     for_range 0 (length vs)
       (fun n results =>
          r <- de_integrator plan
                 (fun x => gradient_of_f f x clean_param (clean_param !!! n))
                 a b tre tae ;;
          ret (<[n := r]> results)) results)).
  { apply only_appends_bind; [apply only_appends_same, only_logs_value_of |].
    intros theta.
    apply only_appends_bind; [apply only_appends_to_var |]. intros clean_param.
    apply only_appends_for_range. intros n rs.
    apply only_appends_bind;
      [| intros; apply only_appends_same, only_logs_ret].
    apply only_appends_de_integrator. intros x.
    apply only_appends_gradient_of_f. }
  apply Hg in Hrest as [Hn Hl]. simpl in Hn, Hl. done.
Qed.

(** X4.  One gradient query leaves the tape in order: [gradient_of_f]
    never touches the stack of nested regions, never removes a node, and
    never changes the value or the operands of a node that was there; what
    it changes of them is their adjoints, and it appends the nodes [f]
    creates. *)
Theorem gradient_of_f_only_appends (f : functor T) (x : T) (param : list var)
    (param_n : var) (w : world T) r w' :
  gradient_of_f f x param param_n w = (r, w') ->
  nested_var_stack_sizes_ w' = nested_var_stack_sizes_ w
  /\ exists added,
       map skeleton (var_stack_ w')
       = map skeleton (var_stack_ w) ++ added.
Proof. apply only_appends_gradient_of_f. Qed.

(** X5.  Whatever [integrate_1d_tsc] is given and however it ends (a
    return, an exception of any kind), every node that was on the tape
    before the call is still there in its place with its value and its
    operands: the nested gradient queries may have changed adjoints, and
    nothing else. *)
Theorem integrate_1d_tsc_keeps_nodes (f : functor T) (a b : T)
    (param : params T) (tre tae : T) (w : world T) r w' :
  integrate_1d_tsc plan f a b param tre tae w = (r, w') ->
  map skeleton (take (length (var_stack_ w)) (var_stack_ w'))
  = map skeleton (var_stack_ w).
Proof.
  unfold integrate_1d_tsc. intros Hrun.
  assert (Hsame : forall w0 : world T,
            var_stack_ w0 = var_stack_ w ->
            map skeleton (take (length (var_stack_ w)) (var_stack_ w0))
            = map skeleton (var_stack_ w)).
  { intros w0 ->. by rewrite take_ge. }
  apply bind_inv in Hrun as [(u1 & w1 & Hc1 & Hrun) | (e & Hc1 & ->)];
    apply only_logs_check_finite in Hc1 as [Hs1 Hn1];
    [| by apply Hsame].
  apply bind_inv in Hrun as [(u2 & w2 & Hc2 & Hrun) | (e & Hc2 & ->)];
    apply only_logs_check_finite in Hc2 as [Hs2 Hn2];
    [| apply Hsame; congruence].
  apply bind_inv in Hrun as [(theta & w3 & Hc3 & Hrun) | (e & Hc3 & ->)].
  2:{ destruct param; simpl in Hc3; [discriminate |].
      apply only_logs_value_of in Hc3 as [Hs3 _]. apply Hsame. congruence. }
  assert (Hs3 : var_stack_ w3 = var_stack_ w).
  { destruct param; simpl in Hc3.
    - injection Hc3 as _ <-. congruence.
    - apply only_logs_value_of in Hc3 as [Hs3 _]. congruence. }
  apply bind_inv in Hrun as [(val_ & w4 & Hc4 & Hrun) | (e & Hc4 & ->)];
    apply only_logs_de_integrator in Hc4 as [Hs4 Hn4];
    try (intros x; apply only_logs_call_f);
    [| apply Hsame; congruence].
  assert (Hs : var_stack_ w4 = var_stack_ w) by congruence.
  destruct param as [ds | vs].
  { injection Hrun as _ <-. by apply Hsame. }
  apply bind_inv in Hrun as [(results & w5 & Hguard & Hrun) | (e & Hguard & ->)].
  - unfold try_catch_std_rethrow in Hguard.
    destruct (integrate_1d_tsc_try_block plan f a b vs tre tae _ w4)
      as [[rs | e] w6] eqn:Hblock; [| by destruct (is_std_exception e),
                                          (recover_memory_nested w6) as [[] ?]].
    injection Hguard as <- <-.
    apply try_block_appends in Hblock as [Hn [added Hadd]].
    apply bind_inv in Hrun as [(u & w7 & Hrec & Hrun) | (e & Hrec & ->)];
      unfold recover_memory_nested in Hrec; rewrite Hn in Hrec;
      [| discriminate].
    injection Hrec as _ <-.
    unfold build, bind, push_node, ret in Hrun. injection Hrun as _ <-.
    simpl. rewrite Hs in *.
    assert (Hlen : length (var_stack_ w) <= length (var_stack_ w6)).
    { apply (f_equal length) in Hadd.
      rewrite length_app, !length_map in Hadd. lia. }
    rewrite take_app_le by (rewrite length_take; lia).
    rewrite take_take, Nat.min_id.
    by apply skeleton_take with (added := added).
  - unfold try_catch_std_rethrow in Hguard.
    destruct (integrate_1d_tsc_try_block plan f a b vs tre tae _ w4)
      as [[rs | e0] w6] eqn:Hblock; [discriminate |].
    apply try_block_appends in Hblock as [Hn [added Hadd]].
    rewrite Hs in *.
    destruct (is_std_exception e0).
    + unfold recover_memory_nested in Hguard. rewrite Hn in Hguard.
      injection Hguard as _ <-. simpl.
      rewrite take_take, Nat.min_id.
      by apply skeleton_take with (added := added).
    + injection Hguard as _ <-.
      by apply skeleton_take with (added := added).
Qed.

(** *** Quadratures started *)

Lemma starts_quadratures_silent {A} (c : M T A) :
  (forall w r w', c w = (r, w') -> history w' = history w) ->
  starts_quadratures 0 c.
Proof.
  intros Hc w r w' Hrun. exists []. rewrite app_nil_r.
  split; [by eapply Hc |]. done.
Qed.

Lemma starts_quadratures_ret {A} (a : A) :
  starts_quadratures 0 (ret a : M T A).
Proof. apply starts_quadratures_silent. by intros w r w' [= _ <-]. Qed.

Lemma starts_quadratures_check_finite (function name : string) (x : T) :
  starts_quadratures 0 (check_finite function name x).
Proof.
  apply starts_quadratures_silent. intros w r w'. unfold check_finite.
  by destruct (isfinite x); intros [= _ <-].
Qed.

Lemma starts_quadratures_call (e : event T) {A} (c : M T A) :
  is_quadrature e = false ->
  starts_quadratures 0 c ->
  starts_quadratures 0 (log_event e ;; c).
Proof.
  intros He Hc w r w' Hrun. unfold bind, log_event, modify in Hrun.
  apply Hc in Hrun as (es & Hh & Hle & Hok). simpl in Hh.
  exists ([e] ++ es). rewrite app_assoc, quadratures_app.
  split; [done |].
  assert (Hq : quadratures [e] = 0).
  { unfold quadratures. by rewrite filter_cons, decide_False by congruence. }
  rewrite Hq. split; [lia |]. intros Hr. by apply Hok.
Qed.

Lemma starts_quadratures_bind {A B} (k1 k2 : nat) (c : M T A)
    (k : A -> M T B) :
  starts_quadratures k1 c -> (forall a, starts_quadratures k2 (k a)) ->
  starts_quadratures (k1 + k2) (bind c k).
Proof.
  intros Hc Hk w r w' Hrun.
  apply bind_inv in Hrun as [(a & w1 & Hc1 & Hk1) | (e & Hc1 & ->)].
  - apply Hc in Hc1 as (es1 & Hh1 & Hle1 & Hok1).
    apply Hk in Hk1 as (es2 & Hh2 & Hle2 & Hok2).
    exists (es1 ++ es2). rewrite app_assoc, quadratures_app.
    split; [congruence |]. specialize (Hok1 eq_refl).
    split; [lia |]. intros Hr. specialize (Hok2 Hr). lia.
  - apply Hc in Hc1 as (es1 & Hh1 & Hle1 & _).
    exists es1. split; [done |]. split; [lia | done].
Qed.

Lemma starts_quadratures_run_plan (p : quad_plan T) (oracle : T -> M T T) :
  (forall x, starts_quadratures 0 (oracle x)) ->
  starts_quadratures 0 (run_plan p oracle).
Proof.
  intros Ho. induction p as [r | x k IH | e]; simpl.
  - apply starts_quadratures_ret.
  - apply (starts_quadratures_bind 0 0); [apply Ho | done].
  - apply starts_quadratures_silent. by intros w r w' [= _ <-].
Qed.

Lemma starts_quadratures_de_integrator (oracle : T -> M T T)
    (a b tre tae : T) :
  (forall x, starts_quadratures 0 (oracle x)) ->
  starts_quadratures 1 (de_integrator plan oracle a b tre tae).
Proof.
  intros Ho w r w' Hrun. unfold de_integrator, bind, log_event, modify in Hrun.
  apply starts_quadratures_run_plan in Hrun as (es & Hh & Hle & Hok);
    [| done].
  simpl in Hh. exists ([EvQuadrature] ++ es).
  rewrite app_assoc, quadratures_app. split; [done |].
  change (quadratures [EvQuadrature]) with 1.
  split; [lia |]. intros Hr. specialize (Hok Hr). lia.
Qed.

Lemma starts_quadratures_for_range {S} (body : nat -> S -> M T S)
    (count n : nat) (s : S) :
  (forall n s, starts_quadratures 1 (body n s)) ->
  starts_quadratures count (for_range n count body s).
Proof.
  intros Hb. revert n s. induction count as [| count IH]; intros n s; simpl.
  - apply starts_quadratures_ret.
  - apply (starts_quadratures_bind 1 count); [apply Hb | intros s'; apply IH].
Qed.

Lemma starts_quadratures_run_ad (p : ad_prog T) :
  starts_quadratures 0 (run_ad p).
Proof.
  apply starts_quadratures_silent.
  induction p as [r | e | v k IH | v edges k IH]; simpl; intros w r' w' Hrun.
  - by injection Hrun as _ <-.
  - by injection Hrun as _ <-.
  - unfold bind, value_of_var in Hrun. by apply IH in Hrun.
  - unfold bind, push_node in Hrun. by apply IH in Hrun.
Qed.

Lemma starts_quadratures_to_var (ds : list T) :
  starts_quadratures 0 (to_var ds).
Proof.
  apply starts_quadratures_silent.
  induction ds as [| d ds IH]; simpl; intros w r w' Hrun.
  - by injection Hrun as _ <-.
  - unfold bind, push_node in Hrun.
    destruct (to_var ds _) as [[vs | e] w1] eqn:Hds;
      apply IH in Hds; by injection Hrun as _ <-.
Qed.

Lemma starts_quadratures_gradient_of_f (f : functor T) (x : T)
    (param : list var) (param_n : var) :
  starts_quadratures 0 (gradient_of_f f x param param_n).
Proof.
  unfold gradient_of_f.
  apply (starts_quadratures_bind 0 0).
  { apply starts_quadratures_silent. intros w r w'.
    unfold set_zero_all_adjoints_nested.
    by destruct (nested_var_stack_sizes_ w); intros [= _ <-]. }
  intros _. apply (starts_quadratures_bind 0 0).
  { unfold call_f_var.
    apply starts_quadratures_call; [done | apply starts_quadratures_run_ad]. }
  intros r. apply (starts_quadratures_bind 0 0).
  { apply starts_quadratures_silent. by intros w r0 w' [= _ <-]. }
  intros _. apply starts_quadratures_silent. by intros w r0 w' [= _ <-].
Qed.

Lemma starts_quadratures_recover_memory_nested :
  starts_quadratures 0 (recover_memory_nested (T := T)).
Proof.
  apply starts_quadratures_silent. intros w r w'.
  unfold recover_memory_nested.
  by destruct (nested_var_stack_sizes_ w); intros [= _ <-].
Qed.

Lemma starts_quadratures_try_catch {A} (k : nat) (body : M T A)
    (handler : M T unit) :
  starts_quadratures k body -> starts_quadratures 0 handler ->
  starts_quadratures k (try_catch_std_rethrow body handler).
Proof.
  intros Hb Hh w r w' Hrun. unfold try_catch_std_rethrow in Hrun.
  destruct (body w) as [[a | e] w1] eqn:Hbody;
    apply Hb in Hbody as (es1 & Hh1 & Hle1 & Hok1).
  - injection Hrun as <- <-. by exists es1.
  - destruct (is_std_exception e).
    + destruct (handler w1) as [[u | e'] w2] eqn:Hhandler;
        apply Hh in Hhandler as (es2 & Hh2 & Hle2 & _);
        injection Hrun as <- <-;
        (exists (es1 ++ es2); rewrite app_assoc, quadratures_app;
         split; [congruence |]; split; [lia | done]).
    + injection Hrun as <- <-. by exists es1.
Qed.

(** X6.  Nested differentiation costs the same number of quadratures as
    analytic gradients: [integrate_1d_tsc] on N differentiable parameters
    (N = 0 for constant ones) starts exactly N + 1 quadratures when it
    returns, and never more than N + 1 however it ends. *)
Theorem integrate_1d_tsc_quadratures (f : functor T) (a b : T)
    (param : params T) (tre tae : T) (w : world T) r w' :
  let N := match param with
           | param_double _ => 0
           | param_var vs => length vs
           end in
  integrate_1d_tsc plan f a b param tre tae w = (r, w') ->
  exists es,
    history w' = history w ++ es
    /\ quadratures es <= N + 1
    /\ (is_ok r = true -> quadratures es = N + 1).
Proof.
  intros N. revert w r w'.
  change (starts_quadratures (N + 1) (integrate_1d_tsc plan f a b param tre tae)).
  unfold integrate_1d_tsc.
  apply (starts_quadratures_bind 0 (N + 1));
    [apply starts_quadratures_check_finite | intros _].
  apply (starts_quadratures_bind 0 (N + 1));
    [apply starts_quadratures_check_finite | intros _].
  apply (starts_quadratures_bind 0 (N + 1)).
  { apply starts_quadratures_silent. intros w r w'.
    by destruct param; intros [= _ <-]. }
  intros theta. rewrite (Nat.add_comm N 1).
  apply (starts_quadratures_bind 1 N).
  { apply starts_quadratures_de_integrator. intros x. unfold call_f.
    apply starts_quadratures_call; [done |].
    apply starts_quadratures_silent. by intros w r w' [= _ <-]. }
  intros val_. destruct param as [ds | vs]; [apply starts_quadratures_ret |].
  subst N. rewrite <- (Nat.add_0_r (length vs)).
  apply (starts_quadratures_bind (length vs) 0).
  - apply starts_quadratures_try_catch;
      [| apply starts_quadratures_recover_memory_nested].
    unfold integrate_1d_tsc_try_block.
    apply (starts_quadratures_bind 0 (length vs)).
    { apply starts_quadratures_silent. by intros w r w' [= _ <-]. }
    intros _. apply (starts_quadratures_bind 0 (length vs)).
    { apply starts_quadratures_silent. by intros w r w' [= _ <-]. }
    intros theta'. apply (starts_quadratures_bind 0 (length vs));
      [apply starts_quadratures_to_var |].
    intros clean_param. apply starts_quadratures_for_range. intros n rs.
    apply (starts_quadratures_bind 1 0); [| intros; apply starts_quadratures_ret].
    apply starts_quadratures_de_integrator. intros x.
    apply starts_quadratures_gradient_of_f.
  - intros results. apply (starts_quadratures_bind 0 0);
      [apply starts_quadratures_recover_memory_nested |].
    intros _. unfold build. apply (starts_quadratures_bind 0 0).
    + apply starts_quadratures_silent. by intros w r w' [= _ <-].
    + intros v. apply starts_quadratures_ret.
Qed.
End IntegrateFrames.

Section RowwiseResults.
Context {T : Type} `{Scalar T}.

Lemma type_count_from (check : arg T -> bool) (targs : list (arg T)) (x : nat) :
  type_count check targs x = x + type_count check targs 0.
Proof.
  revert x. induction targs as [| a targs IH]; intros x; simpl; [lia |].
  destruct (check a); [| lia].
  rewrite (IH (S x)), (IH 1). lia.
Qed.

(** X7.  [type_count] started at zero is the position of the first
    argument that fails the check, and the number of arguments when none
    fails: every argument before that position passes, and the argument at
    that position, if there is one, fails. *)
Theorem type_count_first_failure (check : arg T -> bool)
    (targs : list (arg T)) :
  let pos := type_count check targs 0 in
  forallb check (take pos targs) = true
  /\ match targs !! pos with
     | Some a => check a = false
     | None => pos = length targs
     end.
Proof.
  induction targs as [| a targs [IH1 IH2]]; simpl; [done |].
  destruct (check a) eqn:Ha; [| by split].
  rewrite type_count_from. simpl. rewrite Ha, IH1. split; [done |].
  destruct (targs !! type_count check targs 0); [done | by f_equal].
Qed.

Lemma subset_tuple_seq (tuple : list (arg T)) (o n : nat) :
  o + n <= length tuple ->
  subset_tuple tuple (seq o n) = Some (take n (drop o tuple)).
Proof.
  revert o. induction n as [| n IH]; intros o Hle; simpl.
  - by rewrite take_0.
  - destruct (lookup_lt_is_Some_2 tuple o ltac:(lia)) as [a Ha].
    rewrite Ha, IH by lia.
    rewrite (drop_S _ _ _ Ha). done.
Qed.

Lemma subset_tuple_outside (tuple : list (arg T)) (ints : list nat) :
  Exists (fun i => length tuple <= i) ints -> subset_tuple tuple ints = None.
Proof.
  induction 1 as [i ints Hi | i ints _ IH]; simpl.
  - by rewrite lookup_ge_None_2.
  - rewrite IH. by destruct (tuple !! i).
Qed.

(** X8.  [subset_tuple] on the index sequence [add_offset<o>] of
    [0, ..., n - 1] takes the [n] elements of the tuple that start at
    position [o]; when the tuple is too short for that, there is no such
    tuple (the call does not compile). *)
Theorem subset_tuple_slice (tuple : list (arg T)) (o n : nat) :
  subset_tuple tuple (add_offset o (seq 0 n))
  = if decide (n = 0 \/ o + n <= length tuple)
    then Some (take n (drop o tuple))
    else None.
Proof.
  unfold add_offset.
  change (map (fun i => o + i) (seq 0 n)) with (Nat.add o <$> seq 0 n).
  rewrite fmap_add_seq, Nat.add_0_r.
  destruct (decide (n = 0 \/ o + n <= length tuple)) as [[-> | Hle] | Hno].
  - done.
  - by apply subset_tuple_seq.
  - apply subset_tuple_outside. apply Exists_exists.
    exists (o + (n - 1)). split; [| lia].
    apply elem_of_seq. lia.
Qed.

(** X9.  [rows_equal] holds exactly when every further input has as many
    rows as the first. *)
Theorem rows_equal_spec (x1 : matrix T) (xs : list (matrix T)) :
  rows_equal x1 xs = true <-> Forall (fun x => length x = length x1) xs.
Proof.
  unfold rows_equal. simpl. rewrite Z.eqb_refl. simpl.
  induction xs as [| x xs IH]; simpl.
  - split; [by constructor | done].
  - rewrite andb_true_iff, IH, Forall_cons, Z.eqb_eq. unfold rows.
    split; intros [Hx Hxs]; (split; [lia | done]).
Qed.

End RowwiseResults.

Section LogMixGradients.
Context {T : Type} `{Scalar T} `{Libm T}.

Lemma fold_alter_lookup {A} (g : nat -> A -> A) (count a : nat) (l : list A)
    (i : nat) :
  fold_left (fun l n => alter (g n) n l) (seq a count) l !! i
  = if decide (a <= i < a + count) then g i <$> l !! i else l !! i.
Proof.
  revert a l. induction count as [| count IH]; intros a l; simpl.
  - by rewrite decide_False by lia.
  - rewrite IH. destruct (decide (i = a)) as [-> | Hne].
    + rewrite decide_False, decide_True by lia.
      by rewrite list_lookup_alter_eq.
    + rewrite list_lookup_alter_ne by done.
      destruct (decide (S a <= i < S a + count)).
      * by rewrite decide_True by lia.
      * by rewrite decide_False by lia.
Qed.

Lemma edge2_fold_alter (F : nat -> list T) (ns : list nat)
    (o : operands_and_partials2 T) vss pss :
  edge2_ o = Some (vss, pss) ->
  edge2_ (fold_left (fun o n => add_edge2 n (F n) o) ns o)
  = Some (vss,
          fold_left
            (fun l n =>
               alter (fun ps => zip_with d_add (take (length (F n)) ps) (F n)
                                ++ drop (length (F n)) ps) n l) ns pss).
Proof.
  revert o pss. induction ns as [| n ns IH]; intros o pss Ho; simpl; [done |].
  apply IH. simpl. by rewrite Ho.
Qed.

Lemma accumulate_from_zero (e : T -> T) (lam thetas : list T) :
  length lam = length thetas ->
  let v := zip_with d_mul (map e lam) thetas in
  zip_with d_add (take (length v) (replicate (length lam) d_zero)) v
  ++ drop (length v) (replicate (length lam) d_zero)
  = zip_with (fun l t => (d_zero + e l * t)%D) lam thetas.
Proof.
  intros Hlen v.
  assert (Hv : length v = length lam).
  { unfold v. rewrite length_zip_with, length_map. lia. }
  rewrite Hv, take_ge, drop_ge by (by rewrite length_replicate).
  rewrite app_nil_r. unfold v. clear v Hv. revert thetas Hlen.
  induction lam as [| l lam IH]; intros [| t thetas] Hlen; simpl in *;
    try done.
  f_equal. apply IH. lia.
Qed.

Lemma lookup_total_map_gen {A B} `{Inhabited A} `{Inhabited B} (g : A -> B)
    (l : list A) (i : nat) :
  i < length l -> map g l !!! i = g (l !!! i).
Proof.
  intros Hi. apply list_lookup_total_correct.
  change (map g l) with (g <$> l). rewrite list_lookup_fmap.
  by rewrite list_lookup_lookup_total_lt.
Qed.

Ltac run_checks Hbound Hnan Hfin Hlam :=
  unfold log_mix;
  unfold bind at 1; unfold get at 1;
  unfold bind at 1; unfold lift at 1; rewrite (lam_fill_valid _ _ _ Hlam);
  unfold bind at 1; unfold check_bounded; rewrite Hbound;
  unfold ret at 1; unfold bind at 1; unfold check_not_nan at 1; rewrite Hnan;
  unfold ret at 1; unfold bind at 1; unfold check_finite_vec at 1; rewrite Hfin;
  unfold ret at 1; unfold bind at 1;
  rewrite (check_loop_ok _ _ _ _ _ _ Hlam).

Lemma log_mix_var_lambda_run (theta : vec_arg T) (vss : list (list var))
    (w : world T) :
  log_mix_inputs_valid w theta (vecs_var vss) = true ->
  let thetas := vec_values w theta in
  let lams := map (lam_values w (vecs_var vss)) (seq 0 (length vss)) in
  log_mix theta (vecs_var vss) w
  = (Ok (ret_var (length (var_stack_ w))),
     with_stack
       (var_stack_ w
        ++ [mk_vari (log_mix_value thetas lams) d_zero
              (log_mix_edges w theta (vecs_var vss))]) w).
Proof.
  intros Hvalid thetas lams. unfold log_mix_inputs_valid in Hvalid.
  apply andb_prop in Hvalid as [Hvalid Hlam].
  apply andb_prop in Hvalid as [Hvalid Hfin].
  apply andb_prop in Hvalid as [Hbound Hnan].
  set (lambda := vecs_var vss) in *.
  assert (Hsizes : Forall (fun lam_n => length lam_n = vec_length theta) lams).
  { unfold lams. apply Forall_forall. intros lam_n Hin.
    apply list_elem_of_In, in_map_iff in Hin as (n & <- & Hn).
    pose proof (proj1 (forallb_forall _ _) Hlam n Hn) as Hv.
    unfold lambda_valid in Hv. apply andb_prop in Hv as [_ Hsz].
    by apply Nat.eqb_eq in Hsz. }
  assert (Hthetas : length thetas = vec_length theta).
  { unfold thetas. destruct theta; simpl; [done | by rewrite length_map]. }
  run_checks Hbound Hnan Hfin Hlam.
  rewrite theta_dbl_values. fold thetas.
  change (map (lam_values w lambda) (seq 0 (length_mvt lambda))) with lams.
  change (map (fun col => log_sum_exp (zip_with d_add col (map d_log thetas))) lams)
    with (map (logp_of thetas) lams).
  fold (log_mix_value thetas lams).
  rewrite (dtheta_partials thetas lams (vec_length theta) Hsizes).
  rewrite zip_with_map_r.
  change (is_constant_vecs lambda) with false.
  rewrite orb_true_r. cbn [negb].
  match goal with
  | |- build2 ?o ?value w = _ => set (final := o)
  end.
  assert (Hedge2 : edge2_ final
                   = Some (vss, map (log_mix_dlambda thetas) lams)).
  { unfold final.
    erewrite edge2_fold_alter; cycle 1.
    { instantiate (1 := map (fun v => replicate (length v) d_zero) vss).
      instantiate (1 := vss). by destruct theta. }
    f_equal. f_equal. apply list_eq. intros i.
    rewrite fold_alter_lookup. simpl length_mvt.
    change (map (log_mix_dlambda thetas) lams)
      with (log_mix_dlambda thetas <$> lams).
    change (map (fun v : list var => replicate (length v) d_zero) vss)
      with ((fun v : list var => replicate (length v) d_zero) <$> vss).
    rewrite !list_lookup_fmap.
    destruct (decide (0 <= i < 0 + length vss)) as [Hi | Hi].
    - unfold lams.
      change (map (lam_values w lambda) (seq 0 (length vss)))
        with (lam_values w lambda <$> seq 0 (length vss)).
      rewrite list_lookup_fmap, lookup_seq_lt by lia.
      rewrite (list_lookup_lookup_total_lt vss i) by lia. simpl.
      f_equal.
      assert (Hi_len : length (map (val_at w) (vss !!! i)) = length thetas).
      { rewrite Hthetas.
        apply (proj1 (Forall_forall _ _) Hsizes).
        apply list_elem_of_In, in_map_iff. exists i.
        split; [done | apply in_seq; lia]. }
      rewrite lookup_total_map_gen
        by (rewrite length_map, length_seq; lia).
      rewrite lookup_total_map_gen by (rewrite length_seq; lia).
      rewrite lookup_total_seq_lt by lia. simpl.
      rewrite <- (length_map (val_at w) (vss !!! i)).
      by rewrite (accumulate_from_zero
                    (fun l => d_exp (l - logp_of thetas
                                           (map (val_at w) (vss !!! i)))%D)
                    _ thetas Hi_len).
    - rewrite lookup_ge_None_2 by lia.
      rewrite (lookup_ge_None_2 lams)
        by (unfold lams; rewrite length_map, length_seq; lia).
      done. }
  assert (Hedge1 : edge1_ final
                   = match theta with
                     | vec_double _ => None
                     | vec_var vs =>
                         Some (vs, map (log_mix_dtheta thetas lams)
                                       (seq 0 (length vs)))
                     end).
  { unfold final. rewrite edge1_fold_add_edge2.
    destruct theta as [v | vs]; simpl; [done |].
    rewrite length_map, length_seq.
    rewrite drop_ge by (by rewrite length_replicate).
    by rewrite app_nil_r. }
  unfold build2, edge_list, log_mix_edges, bind, push_node, ret.
  rewrite Hedge1, Hedge2.
  fold thetas. change (length_mvt lambda) with (length vss).
  fold lambda. fold lams.
  by destruct theta.
Qed.

(** X12.  The coefficients for the log densities.  On inputs in its domain
    with differentiable [lambda], [log_mix] returns a new node whose
    operands are the differentiable proportions (if any) followed by all
    the log densities, vector by vector; the coefficient for
    [lambda[n][m]] is [0 + exp(lambda[n][m] - logp[n]) * theta[m]], the
    product [derivs.col(n).cwiseProduct(theta_dbl)] added to the zero the
    coefficient starts from. *)
Theorem log_mix_lambda_partials (theta : vec_arg T) (vss : list (list var))
    (w : world T) :
  log_mix_inputs_valid w theta (vecs_var vss) = true ->
  let thetas := vec_values w theta in
  let lams := map (lam_values w (vecs_var vss)) (seq 0 (length vss)) in
  log_mix theta (vecs_var vss) w
  = (Ok (ret_var (length (var_stack_ w))),
     with_stack
       (var_stack_ w
        ++ [mk_vari (log_mix_value thetas lams) d_zero
              (match theta with
               | vec_double _ => []
               | vec_var vs =>
                   zip vs (map (log_mix_dtheta thetas lams) (seq 0 (length vs)))
               end
               ++ concat (zip_with zip vss
                            (map (fun lam_n =>
                                    zip_with
                                      (fun l t =>
                                         (d_zero
                                          + d_exp (l - logp_of thetas lam_n) * t)%D)
                                      lam_n thetas)
                                 lams)))]) w).
Proof. intros Hvalid. by apply log_mix_var_lambda_run. Qed.
End LogMixGradients.

(** ** The mixture density in exact arithmetic *)

Section LogMixClosedForm.
Local Open Scope R_scope.

Lemma sum_exp_mixture (theta lam : list R) :
  Forall (fun t => 0 < t) theta ->
  Real.sum_exp (zip_with Rplus lam (map ln theta)) = mixture theta lam.
Proof.
  intros Hpos. revert lam.
  induction Hpos as [| t theta Ht _ IH]; intros [| l lam]; simpl; try done.
  rewrite IH, exp_plus, exp_ln by done. lra.
Qed.

Lemma mixture_nonneg (theta lam : list R) :
  Forall (fun t => 0 < t) theta -> 0 <= mixture theta lam.
Proof.
  intros Hpos. revert lam.
  induction Hpos as [| t theta Ht _ IH]; intros [| l lam]; simpl; try lra.
  specialize (IH lam). pose proof (exp_pos l). nra.
Qed.

Lemma mixture_pos (theta lam : list R) :
  Forall (fun t => 0 < t) theta -> theta <> [] -> lam <> [] ->
  0 < mixture theta lam.
Proof.
  intros Hpos Hth Hlam.
  destruct Hpos as [| t theta Ht Hpos]; [done |].
  destruct lam as [| l lam]; [done |]. simpl.
  pose proof (mixture_nonneg theta lam Hpos). pose proof (exp_pos l). nra.
Qed.

Lemma logp_of_mixture (theta lam : list R) :
  Forall (fun t => 0 < t) theta ->
  logp_of theta lam = ln (mixture theta lam).
Proof.
  intros Hpos. unfold logp_of. simpl.
  change (zip_with d_add lam (map ln theta))
    with (zip_with Rplus lam (map ln theta)).
  by rewrite sum_exp_mixture.
Qed.

Lemma exp_minus_ln (a m : R) :
  0 < m -> Rtrigo_def.exp (a - ln m) = Rtrigo_def.exp a / m.
Proof.
  intros Hm. unfold Rminus, Rdiv. by rewrite exp_plus, exp_Ropp, exp_ln.
Qed.

Lemma lam_values_var (w : world R) (vss : list (list var)) :
  map (lam_values w (vecs_var vss)) (seq 0 (length vss))
  = map (map (val_at w)) vss.
Proof.
  simpl.
  transitivity (map (map (val_at w))
                  (map (fun n => vss !!! n) (seq 0 (length vss)))).
  - by rewrite map_map.
  - by rewrite map_lookup_total_seq.
Qed.

Lemma log_mix_valid_sizes (w : world R) (theta : vec_arg R)
    (lambda : vecs_arg R) :
  log_mix_inputs_valid w theta lambda = true ->
  Forall (fun lam_n => length lam_n = vec_length theta)
         (map (lam_values w lambda) (seq 0 (length_mvt lambda))).
Proof.
  intros Hvalid. unfold log_mix_inputs_valid in Hvalid.
  apply andb_prop in Hvalid as [_ Hlam].
  apply Forall_forall. intros lam_n Hin.
  apply list_elem_of_In, in_map_iff in Hin as (n & <- & Hn).
  pose proof (proj1 (forallb_forall _ _) Hlam n Hn) as Hv.
  unfold lambda_valid in Hv. apply andb_prop in Hv as [_ Hsz].
  by apply Nat.eqb_eq in Hsz.
Qed.

(** X13.  In exact real arithmetic, with positive mixing proportions, the
    node [log_mix] builds is the one the comment above the function
    describes.  Writing [mix(n)] for
    [theta[0] * exp(lambda[n][0]) + theta[1] * exp(lambda[n][1]) + ...],
    its value is the sum over [n] of [ln(mix(n))], its coefficient for
    [theta[m]] is the sum over [n] of [exp(lambda[n][m]) / mix(n)], and its
    coefficient for [lambda[n][m]] is
    [exp(lambda[n][m]) * theta[m] / mix(n)]. *)
Theorem log_mix_closed_form (vs : list var) (vss : list (list var))
    (w : world R) :
  let thetas := map (val_at w) vs in
  let lams := map (map (val_at w)) vss in
  log_mix_inputs_valid w (vec_var vs) (vecs_var vss) = true ->
  Forall (fun t => 0 < t) thetas ->
  log_mix (vec_var vs) (vecs_var vss) w
  = (Ok (ret_var (length (var_stack_ w))),
     with_stack
       (var_stack_ w
        ++ [mk_vari
              (Rsum (map (fun lam_n => ln (mixture thetas lam_n)) lams))
              0
              (zip vs
                 (map (fun m =>
                         Rsum (map (fun lam_n =>
                                      Rtrigo_def.exp (lam_n !!! m)
                                      / mixture thetas lam_n) lams))
                      (seq 0 (length vs)))
               ++ concat
                    (zip_with zip vss
                       (map (fun lam_n =>
                               zip_with
                                 (fun l t =>
                                    Rtrigo_def.exp l * t / mixture thetas lam_n)
                                 lam_n thetas)
                            lams)))]) w).
Proof.
  intros thetas lams Hvalid Hpos.
  pose proof (log_mix_valid_sizes _ _ _ Hvalid) as Hsizes.
  rewrite log_mix_var_lambda_run by done.
  unfold log_mix_edges. cbn [length_mvt vec_values vec_length] in *.
  rewrite lam_values_var in *. fold thetas lams in Hsizes |- *.
  assert (Hlen : length thetas = length vs)
    by (unfold thetas; by rewrite length_map).
  assert (Hvalue :
    log_mix_value thetas lams
    = Rsum (map (fun lam_n => ln (mixture thetas lam_n)) lams)).
  { unfold log_mix_value. rewrite eigen_sum_Rsum. f_equal.
    apply map_ext. intros lam_n. by apply logp_of_mixture. }
  assert (Hdtheta :
    map (log_mix_dtheta thetas lams) (seq 0 (length vs))
    = map (fun m =>
             Rsum (map (fun lam_n =>
                          Rtrigo_def.exp (lam_n !!! m) / mixture thetas lam_n)
                       lams))
          (seq 0 (length vs))).
  { apply map_ext_in. intros m Hm. apply in_seq in Hm.
    unfold log_mix_dtheta. rewrite eigen_sum_Rsum. f_equal.
    apply map_ext_in. intros lam_n Hin.
    rewrite logp_of_mixture by done. simpl.
    apply exp_minus_ln. apply mixture_pos; [done | |].
    - intros Hnil. rewrite Hnil in Hlen. simpl in Hlen. lia.
    - intros Hnil.
      pose proof (proj1 (Forall_forall _ _) Hsizes lam_n
                    (proj2 (list_elem_of_In _ _) Hin)) as Hl.
      rewrite Hnil in Hl. simpl in Hl. lia. }
  assert (Hdlambda :
    map (log_mix_dlambda thetas) lams
    = map (fun lam_n =>
             zip_with (fun l t => Rtrigo_def.exp l * t / mixture thetas lam_n)
                      lam_n thetas)
          lams).
  { apply map_ext_in. intros lam_n Hin. unfold log_mix_dlambda.
    rewrite logp_of_mixture by done.
    destruct lam_n as [| l0 lam_n]; [done |].
    destruct thetas as [| t0 thetas'] eqn:Hth; [done |].
    assert (Hmix : 0 < mixture (t0 :: thetas') (l0 :: lam_n))
      by (by apply mixture_pos).
    apply zip_with_ext; [| done | done]. intros l t. simpl.
    rewrite exp_minus_ln by done. lra. }
  by rewrite Hvalue, Hdtheta, Hdlambda.
Qed.
End LogMixClosedForm.

(** ** Elementwise functions and their derivatives *)

Section TruncTwice.
Context {T : Type} `{Scalar T}.
Variable d_trunc : T -> T.
Variable NOT_A_NUMBER : T.

Lemma select_twice (c : list bool) (a : T) (b : list T) :
  select c a (select c a b) = select c a b.
Proof.
  unfold select. revert b.
  induction c as [| ci c IH]; intros [| bi b]; simpl; try done.
  rewrite IH. by destruct ci.
Qed.

(** X14.  Running the reverse-pass callback of [trunc] a second time
    changes nothing: once the adjoints of [A] at the NaN positions are
    [NOT_A_NUMBER], another pass, with whatever adjoint in the result,
    leaves the node of [A] as the first pass left it.  (The callback
    assigns; it does not accumulate.) *)
Theorem trunc_callback_idempotent (A : var_value T) (incoming1 incoming2 : block T) :
  let c := trunc d_trunc NOT_A_NUMBER A in
  chain_callback c incoming2 (chain_callback c incoming1 A)
  = chain_callback c incoming1 A.
Proof.
  intros c. unfold chain_callback. simpl. f_equal. f_equal.
  apply select_twice.
Qed.
End TruncTwice.

Section Log1pExpDerivative.
Local Open Scope R_scope.

Lemma derivable_pt_lim_eq (f : R -> R) (x l l' : R) :
  derivable_pt_lim f x l -> l = l' -> derivable_pt_lim f x l'.
Proof. by intros Hf <-. Qed.

Lemma log1p_exp_inv_logit (x : R) :
  derivable_pt_lim (fun x => ln (1 + Rtrigo_def.exp x)) x
                   (1 / (1 + Rtrigo_def.exp (- x))).
Proof.
  pose proof (exp_pos x) as Hexp.
  assert (H1 : derivable_pt_lim (fun x => 1 + Rtrigo_def.exp x) x
                                (0 + Rtrigo_def.exp x)).
  { apply (derivable_pt_lim_plus (fct_cte 1) Rtrigo_def.exp);
      [apply derivable_pt_lim_const | apply derivable_pt_lim_exp]. }
  assert (Hpos : 0 < 1 + Rtrigo_def.exp x) by lra.
  pose proof (derivable_pt_lim_comp _ ln x _ _ H1
                (derivable_pt_lim_ln _ Hpos)) as Hc.
  apply (derivable_pt_lim_eq _ _ _ _ Hc).
  rewrite exp_Ropp. field. lra.
Qed.

(** X15.  In exact real arithmetic the scalar [log1p_exp] records the
    right derivative: the node it pushes has the operand [a] as its only
    operand, its value is [log1p_exp] of the value of [a], and its
    coefficient, the factor [inv_logit(avi_->val_)] of [chain()], is the
    derivative of [log1p_exp] at the value of [a]. *)
Theorem log1p_exp_var_derivative (w : world R) (a : var) :
  exists partial,
    log1p_exp_var a w
    = (Ok (length (var_stack_ w)),
       with_stack
         (var_stack_ w ++ [mk_vari (log1p_exp (val_at w a)) 0 [(a, partial)]])
         w)
    /\ derivable_pt_lim log1p_exp (val_at w a) partial.
Proof.
  eexists. split; [reflexivity |]. apply log1p_exp_inv_logit.
Qed.
End Log1pExpDerivative.

Section FwdAtan.
Context {T : Type} `{Scalar T}.
Variable d_div : T -> T -> T.
Variable d_atan : T -> T.

Lemma atan_vector_map (v : list (fvar T)) :
  atan_vector d_div d_atan v = map (atan_fvar d_div d_atan) v.
Proof.
  unfold atan_vector. induction v as [| x v IH]; simpl; [done |].
  by rewrite IH.
Qed.

(** X16.  The container version of forward-mode [atan] agrees with the
    scalar version on every element: on any container, however nested, it
    returns the container of the same shape that holds [atan(x)] for each
    element [x], value and tangent. *)
Theorem atan_container_elementwise (x : container T) :
  atan_container d_div d_atan x = container_map (atan_fvar d_div d_atan) x.
Proof.
  unfold atan_container. revert x. fix IH 1. intros [v | cs]; simpl.
  - by rewrite atan_vector_map.
  - f_equal. induction cs as [| c cs IHcs]; simpl; [done |].
    by rewrite IH, IHcs.
Qed.
End FwdAtan.

Section FwdAtanDerivative.
Local Open Scope R_scope.

(** X17.  Forward-mode [atan] propagates derivatives correctly in exact
    real arithmetic: when [x] holds the value and the derivative at [t0] of
    a function [u], [atan(x)] holds the value and the derivative at [t0]
    of [atan(u(t))]. *)
Theorem atan_fvar_sound (u : R -> R) (t0 : R) (x : fvar R) :
  fval_ x = u t0 ->
  derivable_pt_lim u t0 (d_ x) ->
  let y := atan_fvar Rdiv atan x in
  fval_ y = atan (u t0)
  /\ derivable_pt_lim (fun t => atan (u t)) t0 (d_ y).
Proof.
  intros Hval Hd y. split; [simpl; by rewrite Hval |].
  pose proof (derivable_pt_lim_comp u atan t0 _ _ Hd
                (derivable_pt_lim_atan (u t0))) as Hc.
  apply (derivable_pt_lim_eq _ _ _ _ Hc).
  simpl. unfold square. simpl. rewrite Hval. field. nra.
Qed.
End FwdAtanDerivative.

(** ** Results and tape of the integrator and of [log_mix] *)

Section IntegrateValue.
Context {T : Type} `{Scalar T}.
Variable plan : T -> T -> T -> T -> quad_plan T.

Lemma check_finite_ok (function name : string) (x : T) (w : world T) u w1 :
  check_finite function name x w = (Ok u, w1) -> w1 = w.
Proof. unfold check_finite. by destruct (isfinite x); intros [= <-]. Qed.

(** X18.  The number [integrate_1d_tsc] returns is the quadrature of [f] at
    the plain parameter values, whether the parameters are constants or
    not: a returned [double] is that result, and a returned [var] is a
    node that holds it as its value.  The nested gradient queries do not
    enter the value. *)
Theorem integrate_1d_tsc_returns_quadrature_of_f (f : functor T) (a b : T) (param : params T)
    (tre tae : T) (w : world T) r w' :
  let theta := match param with
               | param_double ds => ds
               | param_var vs => map (val_at w) vs
               end in
  let F := quad_run (plan a b tre tae) (fun x => at_double f x theta) in
  integrate_1d_tsc plan f a b param tre tae w = (Ok r, w') ->
  fst F = Ok (scalar_value w' r).
Proof.
  intros theta F Hrun. unfold integrate_1d_tsc in Hrun.
  apply bind_inv in Hrun as [(u1 & w1 & Hc1 & Hrun) | (e & _ & [=])].
  apply check_finite_ok in Hc1 as ->.
  apply bind_inv in Hrun as [(u2 & w2 & Hc2 & Hrun) | (e & _ & [=])].
  apply check_finite_ok in Hc2 as ->.
  apply bind_inv in Hrun as [(theta' & w3 & Hc3 & Hrun) | (e & _ & [=])].
  assert (Htheta : theta' = theta /\ w3 = w).
  { destruct param; simpl in Hc3; by injection Hc3 as <- <-. }
  destruct Htheta as [-> ->].
  apply bind_inv in Hrun as [(val_ & w4 & Hc4 & Hrun) | (e & _ & [=])].
  unfold call_f in Hc4.
  rewrite (de_integrator_instrumented plan (fun x => EvCallF x theta)
             (fun x => at_double f x theta)) in Hc4.
  fold F in Hc4. injection Hc4 as HF _. rewrite HF. f_equal.
  destruct param as [ds | vs].
  - by injection Hrun as <- <-.
  - apply bind_inv in Hrun as [(results & w5 & _ & Hrun) | (e & _ & [=])].
    apply bind_inv in Hrun as [(u & w6 & _ & Hrun) | (e & _ & [=])].
    unfold build, bind, push_node, ret in Hrun. injection Hrun as <- <-.
    simpl. by rewrite val_at_pushed.
Qed.
End IntegrateValue.

Section LogMixTape.
Context {T : Type} `{Scalar T} `{Libm T}.

Lemma log_mix_reports_run (theta : vec_arg T) (lambda : vecs_arg T)
    (w : world T) :
  lambda_reads_in_range w theta lambda = true ->
  log_mix_inputs_valid w theta lambda = false ->
  exists e, log_mix theta lambda w = (Raise e, w) /\ log_mix_reported e.
Proof.
  intros Hin Hbad. unfold log_mix_inputs_valid in Hbad. unfold log_mix.
  unfold log_mix_reported.
  unfold bind at 1. unfold get at 1.
  unfold bind at 1. unfold lift at 1. rewrite (lam_fill_in_range _ _ _ Hin).
  unfold bind at 1. unfold check_bounded.
  destruct (forallb _ (vec_values w theta));
    [| eexists; split; [reflexivity | tauto]].
  unfold ret at 1. unfold bind at 1. unfold check_not_nan at 1.
  destruct (forallb _ (vec_values w theta));
    [| eexists; split; [reflexivity | tauto]].
  unfold ret at 1. unfold bind at 1. unfold check_finite_vec at 1.
  destruct (forallb _ (vec_values w theta));
    [| eexists; split; [reflexivity | tauto]].
  unfold ret at 1. unfold bind at 1. simpl in Hbad.
  destruct (check_loop_reports theta lambda w w _ _ Hbad) as (e & He & Hrep).
  rewrite He. by exists e.
Qed.

Lemma log_mix_invalid_run (theta : vec_arg T) (lambda : vecs_arg T)
    (w : world T) :
  log_mix_inputs_valid w theta lambda = false ->
  exists e, log_mix theta lambda w = (Raise e, w).
Proof.
  intros Hbad. destruct (lambda_reads_in_range w theta lambda) eqn:Hin.
  - destruct (log_mix_reports_run _ _ _ Hin Hbad) as (e & He & _).
    by exists e.
  - eexists. by apply log_mix_past_run.
Qed.

(** X20.  The checks of [log_mix].  When no [lambda[n]] is shorter than
    [theta] and the inputs are outside the domain (a mixing proportion
    outside [[0, 1]], NaN or not finite, a log density that is NaN or not
    finite, or a [lambda[n]] longer than [theta]), the call throws one of
    the errors its checks report, a [domain_error] for [theta] or for
    [lambda] or the [invalid_argument] of the size check, before a node is
    allocated: the world it leaves is the world it was given. *)
Theorem log_mix_rejects_invalid_inputs (theta : vec_arg T) (lambda : vecs_arg T)
    (w : world T) :
  lambda_reads_in_range w theta lambda = true ->
  log_mix_inputs_valid w theta lambda = false ->
  exists e,
    log_mix theta lambda w = (Raise e, w)
    /\ (e = domain_error "log_mix" "theta"
        \/ e = domain_error "log_mix" "lambda"
        \/ e = invalid_argument "log_mix")
    /\ is_std_exception e = true.
Proof.
  intros Hin Hbad.
  destruct (log_mix_reports_run _ _ _ Hin Hbad) as (e & He & Hrep).
  exists e. split; [done |]. split; [done |].
  by destruct Hrep as [-> | [-> | ->]].
Qed.

(** X19.  What [log_mix] does to the autodiff stack, for all arguments
    and every outcome.  When it throws, and when it returns a [double],
    the stack is the one it was given; it returns a [double] only when
    both arguments are constants.  When it returns a [var], the stack is
    the one it was given followed by one node, the returned one, whose
    adjoint is zero.  It never touches a node that was there. *)
Theorem log_mix_tape_effect (theta : vec_arg T) (lambda : vecs_arg T)
    (w : world T) r w' :
  log_mix theta lambda w = (r, w') ->
  match r with
  | Raise _ => w' = w
  | Ok (ret_double _) =>
      w' = w /\ is_constant_vec theta = true /\ is_constant_vecs lambda = true
  | Ok (ret_var v) =>
      v = length (var_stack_ w)
      /\ exists value edges,
           w' = with_stack (var_stack_ w ++ [mk_vari value d_zero edges]) w
  end.
Proof.
  intros Hrun.
  destruct (log_mix_inputs_valid w theta lambda) eqn:Hvalid.
  - destruct lambda as [lams | vss].
    + destruct theta as [thetas | vs].
      * rewrite log_mix_valid_double in Hrun by done.
        by injection Hrun as <- <-.
      * destruct (log_mix_valid_run _ _ _ Hvalid)
          as (r0 & w0 & Hrun0 & _ & Hnode).
        destruct (Hnode vs eq_refl) as (lam_edges & -> & -> & _).
        rewrite Hrun0 in Hrun. injection Hrun as <- <-.
        split; [done |]. by eexists _, _.
    + rewrite log_mix_var_lambda_run in Hrun by done.
      injection Hrun as <- <-. split; [done |]. by eexists _, _.
  - destruct (log_mix_invalid_run _ _ _ Hvalid) as [e He].
    rewrite He in Hrun. by injection Hrun as <- <-.
Qed.
End LogMixTape.

(** * The further statements at concrete inputs *)

Section FurtherRuns.
Import Sample FailingSample.

Lemma integrate_1d_tsc_tscg_tape_effect_witness :
  let out := integrate_1d_tsc_tscg two_point_plan f g (d 0) (d 1)
               (param_var [0]) tol tol tape in
  fst out = Ok (ret_var 1)
  /\ nested_var_stack_sizes_ (snd out) = nested_var_stack_sizes_ tape
  /\ exists vs value partials,
       (param_var [0] : params Binary64.double) = param_var vs
       /\ length partials = length vs
       /\ var_stack_ (snd out)
          = var_stack_ tape ++ [mk_vari value d_zero (zip vs partials)].
Proof.
  intros out.
  pose proof (integrate_1d_tsc_tscg_tape_effect (H := Binary64.scalar)
                two_point_plan f g (d 0) (d 1) (param_var [0]) tol tol tape
                (fst out) (snd out) (surjective_pairing out)) as [Hn Hs].
  assert (Hout : fst out = Ok (ret_var 1)) by (vm_compute; reflexivity).
  rewrite Hout in Hs. split; [exact Hout |]. split; [exact Hn |].
  exact (proj2 Hs).
Defined.

Lemma integrate_1d_tsc_tscg_gradient_failure_witness :
  isfinite (d 0) = true /\ isfinite (d 1) = true
  /\ integrate_1d_tsc_tscg two_point_plan f g_fails (d 0) (d 1)
       (param_var [0]) tol tol tape
     = (Raise (domain_error "g" "x"),
        record_events [EvQuadrature; EvCallG (d 0) [d 3] 1] tape).
Proof.
  split; [reflexivity |]. split; [reflexivity |].
  destruct (integrate_1d_tsc_tscg_gradient_failure (H := Binary64.scalar)
              two_point_plan f g_fails (d 0) (d 1) [0] tol tol tape 0
              (domain_error "g" "x")
              eq_refl eq_refl eq_refl (le_n 1) eq_refl eq_refl)
    as [Hrun _].
  rewrite Hrun. vm_compute. reflexivity.
Defined.

Lemma integrate_1d_tsc_value_failure_witness :
  isfinite (d 0) = true /\ isfinite (d 1) = true
  /\ integrate_1d_tsc two_point_plan f_fails (d 0) (d 1) (param_var [0])
       tol tol tape
     = (Raise (domain_error "f" "x"),
        record_events [EvQuadrature; EvCallF (d 0) [d 3]] tape).
Proof.
  split; [reflexivity |]. split; [reflexivity |].
  rewrite (integrate_1d_tsc_value_failure (H := Binary64.scalar)
             two_point_plan f_fails (d 0) (d 1) (param_var [0]) tol tol tape
             (domain_error "f" "x") eq_refl eq_refl eq_refl).
  vm_compute. reflexivity.
Defined.

Lemma gradient_of_f_only_appends_witness :
  let out := gradient_of_f f (d 2) [0] 0 (nested_tape (d 5)) in
  nested_var_stack_sizes_ (snd out) = [0]
  /\ exists added,
       map skeleton (var_stack_ (snd out))
       = map skeleton (var_stack_ (nested_tape (d 5))) ++ added.
Proof.
  intros out.
  exact (gradient_of_f_only_appends (H := Binary64.scalar)
           f (d 2) [0] 0 (nested_tape (d 5)) (fst out) (snd out)
           (surjective_pairing out)).
Defined.

Lemma integrate_1d_tsc_keeps_nodes_witness :
  let out := integrate_1d_tsc two_point_plan (f_throws (thrown_object 0))
               (d 0) (d 1) (param_var [0]) tol tol tape in
  fst out = Raise (thrown_object 0)
  /\ map skeleton (take (length (var_stack_ tape)) (var_stack_ (snd out)))
     = map skeleton (var_stack_ tape).
Proof.
  intros out. split; [vm_compute; reflexivity |].
  exact (integrate_1d_tsc_keeps_nodes (H := Binary64.scalar)
           two_point_plan (f_throws (thrown_object 0)) (d 0) (d 1)
           (param_var [0]) tol tol tape (fst out) (snd out)
           (surjective_pairing out)).
Defined.

Lemma integrate_1d_tsc_quadratures_witness :
  let out := integrate_1d_tsc two_point_plan f (d 0) (d 1) (param_var [0])
               tol tol tape in
  is_ok (fst out) = true
  /\ exists es,
       history (snd out) = history tape ++ es /\ quadratures es = 2.
Proof.
  intros out.
  destruct (integrate_1d_tsc_quadratures (H := Binary64.scalar)
              two_point_plan f (d 0) (d 1) (param_var [0]) tol tol tape
              (fst out) (snd out) (surjective_pairing out))
    as (es & Hh & _ & Hok).
  assert (Hout : is_ok (fst out) = true) by (vm_compute; reflexivity).
  split; [exact Hout |]. exists es. split; [exact Hh |]. exact (Hok Hout).
Defined.

Lemma integrate_1d_tsc_returns_quadrature_of_f_witness :
  let out := integrate_1d_tsc two_point_plan f (d 0) (d 1) (param_var [0])
               tol tol tape in
  fst out = Ok (ret_var 1)
  /\ fst (quad_run (two_point_plan (d 0) (d 1) tol tol)
            (fun x => at_double f x [d 3]))
     = Ok (scalar_value (snd out) (ret_var 1)).
Proof.
  intros out.
  assert (Hout : fst out = Ok (ret_var 1)) by (vm_compute; reflexivity).
  split; [exact Hout |].
  assert (Hrun : integrate_1d_tsc two_point_plan f (d 0) (d 1) (param_var [0])
                   tol tol tape = (Ok (ret_var 1), snd out)).
  { rewrite <- Hout. apply surjective_pairing. }
  exact (integrate_1d_tsc_returns_quadrature_of_f (H := Binary64.scalar) two_point_plan f
           (d 0) (d 1) (param_var [0]) tol tol tape _ _ Hrun).
Defined.
End FurtherRuns.

Section FurtherRealRuns.
Local Open Scope R_scope.

Lemma mix_sample_valid :
  log_mix_inputs_valid MixSample.tape (vec_var MixSample.theta)
    (vecs_var MixSample.lambda) = true.
Proof.
  unfold log_mix_inputs_valid. simpl. unfold val_at. simpl.
  rewrite !Rle_dec_true by lra. reflexivity.
Qed.

Lemma mix_sample_positive :
  Forall (fun t => 0 < t) (map (val_at MixSample.tape) MixSample.theta).
Proof. repeat constructor; unfold val_at; simpl; lra. Qed.

Lemma log_mix_lambda_partials_witness :
  log_mix_inputs_valid MixSample.tape (vec_var MixSample.theta)
    (vecs_var MixSample.lambda) = true
  /\ fst (log_mix (vec_var MixSample.theta) (vecs_var MixSample.lambda)
            MixSample.tape)
     = Ok (ret_var 4).
Proof.
  split; [exact mix_sample_valid |].
  by rewrite (log_mix_lambda_partials (vec_var MixSample.theta)
                MixSample.lambda MixSample.tape mix_sample_valid).
Defined.

Lemma log_mix_closed_form_witness :
  log_mix_inputs_valid MixSample.tape (vec_var MixSample.theta)
    (vecs_var MixSample.lambda) = true
  /\ Forall (fun t => 0 < t) (map (val_at MixSample.tape) MixSample.theta)
  /\ fst (log_mix (vec_var MixSample.theta) (vecs_var MixSample.lambda)
            MixSample.tape)
     = Ok (ret_var 4).
Proof.
  split; [exact mix_sample_valid |]. split; [exact mix_sample_positive |].
  by rewrite (log_mix_closed_form MixSample.theta MixSample.lambda
                MixSample.tape mix_sample_valid mix_sample_positive).
Defined.

Lemma log_mix_tape_effect_witness :
  let out := log_mix (vec_var MixSample.theta) (vecs_var MixSample.lambda)
               MixSample.tape in
  fst out = Ok (ret_var 4)
  /\ exists value edges,
       snd out
       = with_stack (var_stack_ MixSample.tape ++ [mk_vari value 0 edges])
           MixSample.tape.
Proof.
  intros out.
  assert (Hout : fst out = Ok (ret_var 4)).
  { unfold out. by rewrite (log_mix_var_lambda_run _ _ _ mix_sample_valid). }
  split; [exact Hout |].
  pose proof (log_mix_tape_effect (vec_var MixSample.theta)
                (vecs_var MixSample.lambda) MixSample.tape (fst out) (snd out)
                (surjective_pairing out)) as Heffect.
  rewrite Hout in Heffect. exact (proj2 Heffect).
Defined.

Lemma log_mix_rejects_invalid_inputs_witness :
  lambda_reads_in_range RealSample.empty_tape (vec_double RealSample.theta)
    (vecs_double MixSample.long_lambda) = true
  /\ log_mix_inputs_valid RealSample.empty_tape (vec_double RealSample.theta)
       (vecs_double MixSample.long_lambda) = false
  /\ exists e,
       log_mix (vec_double RealSample.theta)
         (vecs_double MixSample.long_lambda) RealSample.empty_tape
       = (Raise e, RealSample.empty_tape)
       /\ is_std_exception e = true.
Proof.
  assert (Hin : lambda_reads_in_range RealSample.empty_tape
                  (vec_double RealSample.theta)
                  (vecs_double MixSample.long_lambda) = true)
    by reflexivity.
  assert (Hbad : log_mix_inputs_valid RealSample.empty_tape
                   (vec_double RealSample.theta)
                   (vecs_double MixSample.long_lambda) = false).
  { unfold log_mix_inputs_valid.
    rewrite theta_valid_example by done. reflexivity. }
  split; [exact Hin |]. split; [exact Hbad |].
  destruct (log_mix_rejects_invalid_inputs _ _ _ Hin Hbad)
    as (e & Hrun & _ & Hstd).
  exists e. split; [exact Hrun | exact Hstd].
Defined.

Lemma atan_fvar_sound_witness :
  derivable_pt_lim id 0 1
  /\ derivable_pt_lim (fun t => atan (id t)) 0
       (d_ (atan_fvar Rdiv atan (mk_fvar 0 1))).
Proof.
  split; [apply derivable_pt_lim_id |].
  exact (proj2 (atan_fvar_sound id 0 (mk_fvar 0 1) eq_refl
                  (derivable_pt_lim_id 0))).
Defined.
End FurtherRealRuns.
